(** * StoneAggregator: the world-state aggregation engine of [aggregation.py]

    A shallow embedding of the classes [BeaconId], [Contact], [Stone],
    [World], [Aggregator] and [MqttService], one Rocq module per Python
    class, followed by the properties of the sliding contact window, the
    upsert operations, the aggregation views and the message handler. *)

From Stdlib Require Import ZArith String Ascii List.
From Stdlib.Strings Require Import Byte.
From stdpp Require Import base decidable option numbers list strings gmap fin_maps.

Local Open Scope string_scope.
Local Open Scope list_scope.
Local Open Scope Z_scope.

(** ** Decoded JSON values

    What [json.loads] returns: [None], booleans, integers, strings, lists
    and dicts (in key order). Numbers with a fractional part are left out. *)

#[warnings="-register-all"] Inductive json : Type :=
| JNull
| JBool (b : bool)
| JInt (n : Z)
| JStr (s : string)
| JList (l : list json)
| JDict (d : list (string * json)).

(** ** class BeaconId *)

Module BeaconId.

Record t : Type := mk { uuid : json; major : json; minor : json }.

End BeaconId.

(** ** class Contact

    The payload fields are kept as the JSON values they were decoded to;
    the address is the string the wire format carries. *)

Module Contact.

Record t : Type := mk {
  timestamp : Z;
  mac_address : string;
  b_address : BeaconId.t;
  rssi_min : json;
  rssi_max : json;
  rssi_avg : json;
  tx_rssi : json
}.

End Contact.

(** ** class Stone *)

Module Stone.

Record t : Type := mk {
  mac_address : string;
  b_address : BeaconId.t;
  comment : json;
  last_update : Z;
  contacts : list Contact.t
}.

(** [Stone.__init__] *)
Definition init (mac_address : string) (b_address : BeaconId.t) (comment : json) : t :=
  {| mac_address := mac_address; b_address := b_address; comment := comment;
     last_update := 0; contacts := [] |}.

(** The comprehension [[c for c in self.contacts if c.timestamp >= (timestamp - 60)]]. *)
Definition recent (timestamp : Z) (cs : list Contact.t) : list Contact.t :=
  filter (λ c, Contact.timestamp c >= timestamp - 60) cs.

(** One iteration of [for ct in recent_contacts]: filter out the entries
    with [ct]'s address, then append [ct]. *)
Definition put (cs : list Contact.t) (ct : Contact.t) : list Contact.t :=
  filter (λ x, Contact.mac_address x ≠ Contact.mac_address ct) cs ++ [ct].

(** [Stone.update] *)
Definition update (self : t) (timestamp : Z) (recent_contacts : list Contact.t) : t :=
  {| mac_address := mac_address self;
     b_address := b_address self;
     comment := comment self;
     last_update := timestamp;
     contacts := foldl put (recent timestamp (contacts self)) recent_contacts |}.

(** The contacts the loop over [recent_contacts] leaves in place: those
    whose address none of the new contacts carries. *)
Definition untouched (recent_contacts : list Contact.t) (x : Contact.t) : Prop :=
  Forall (λ ct, Contact.mac_address x ≠ Contact.mac_address ct) recent_contacts.

(** A sequence of [update] calls on one stone, oldest first. *)
Definition updates (self : t) (calls : list (Z * list Contact.t)) : t :=
  foldl (λ s call, update s call.1 call.2) self calls.

(** The two parts of the invariant the data model asks of a stone. *)
Definition distinct_sources (s : t) : Prop :=
  NoDup (Contact.mac_address <$> contacts s).

Definition within_window (s : t) : Prop :=
  Forall (λ c, Contact.timestamp c >= last_update s - 60) (contacts s).

(** The contacts of a list that come from the source [mac]. *)
Definition from_source (mac : string) (cs : list Contact.t) : list Contact.t :=
  filter (λ c, Contact.mac_address c = mac) cs.

(** A call whose new contacts are themselves stamped inside the window of
    the call's timestamp; the handler stamps them with that very timestamp. *)
Definition stamped_within (call : Z * list Contact.t) : Prop :=
  Forall (λ c, Contact.timestamp c >= call.1 - 60) call.2.

End Stone.

(** ** class World

    The two dicts are finite maps keyed by address; the lock only
    serialises callers and has no counterpart in a sequential model. *)

Module World.

Record t : Type := mk {
  stones : gmap string Stone.t;
  descs : gmap string (json * json)
}.

(** [World.__init__] *)
Definition init : t := {| stones := ∅; descs := ∅ |}.

(** [World.update_stone] *)
Definition update_stone (self : t) (stone : Stone.t) : t :=
  match stones self !! Stone.mac_address stone with
  | None =>
      {| stones := <[Stone.mac_address stone := stone]> (stones self);
         descs := descs self |}
  | Some existing =>
      {| stones := <[Stone.mac_address stone :=
                      Stone.update existing (Stone.last_update stone) (Stone.contacts stone)]>
                     (stones self);
         descs := descs self |}
  end.

(** Every stored stone meets the invariant of the data model. *)
Definition well_kept (self : t) : Prop :=
  map_Forall (λ _ s, Stone.distinct_sources s ∧ Stone.within_window s) (stones self).

(** Every stone is stored under its own address. *)
Definition keyed (self : t) : Prop :=
  map_Forall (λ mac s, Stone.mac_address s = mac) (stones self).

(** [World.update_desc] *)
Definition update_desc (self : t) (mac_address : string) (name color : json) : t :=
  {| stones := stones self;
     descs := <[mac_address := (name, color)]> (descs self) |}.

End World.

(** ** The configuration file

    [CONFIG] after [CONFIG.read]: an option that the file leaves out is
    [None] and takes the fallback of the call that reads it. *)

Module Config.

Record t : Type := mk {
  ChannelPrefixSensors : option string;
  ChannelNameUpdates : option string;
  ChannelStoneInfo : option string;
  ChannelGraphInfo : option string;
  ChannelNames : option string;
  UpdateInterval : option Z;
  StoneInfoIncludeContacts : option bool
}.

(** A file with none of the options the engine reads. *)
Definition empty : t := mk None None None None None None None.

End Config.

(** ** class Aggregator

    Each function builds a dict and returns [json.dumps] of it; the model
    returns the dict, a map from address to the JSON object of that entry. *)

Module Aggregator.

Definition beacon_fields (b : BeaconId.t) : list (string * json) :=
  [("uuid", BeaconId.uuid b); ("major", BeaconId.major b); ("minor", BeaconId.minor b)].

(** The dict appended per contact in [aggregate_stones]. *)
Definition stone_contact (c : Contact.t) : json :=
  JDict ([("mac", JStr (Contact.mac_address c))] ++ beacon_fields (Contact.b_address c)
         ++ [("rssi_avg", Contact.rssi_avg c); ("rssi_tx", Contact.tx_rssi c)]).

(** The value of [stones_info[mac]] when the loop body is done. *)
Definition stone_entry (include_contacts : bool) (s : Stone.t) : json :=
  JDict (beacon_fields (Stone.b_address s)
         ++ [("comment", Stone.comment s); ("last_seen", JInt (Stone.last_update s))]
         ++ (if include_contacts
             then [("contacts", JList (stone_contact <$> Stone.contacts s))]
             else [])).

(** [Aggregator.aggregate_stones]; the flag is
    [CONFIG.getboolean('Aggregator', 'StoneInfoIncludeContacts', fallback=True)]. *)
Definition aggregate_stones (CONFIG : Config.t) (stones : gmap string Stone.t)
  : gmap string json :=
  stone_entry (default true (Config.StoneInfoIncludeContacts CONFIG)) <$> stones.

(** The dict appended per contact in [aggregate_graph]. *)
Definition graph_contact (current_time : Z) (c : Contact.t) : json :=
  JDict ([("mac", JStr (Contact.mac_address c))] ++ beacon_fields (Contact.b_address c)
         ++ [("age", JInt (current_time - Contact.timestamp c));
             ("rssi_avg", Contact.rssi_avg c); ("rssi_tx", Contact.tx_rssi c)]).

Definition graph_entry (current_time : Z) (s : Stone.t) : json :=
  JDict (beacon_fields (Stone.b_address s)
         ++ [("comment", Stone.comment s);
             ("age", JInt (current_time - Stone.last_update s));
             ("contacts", JList (graph_contact current_time <$> Stone.contacts s))]).

(** [Aggregator.aggregate_graph] *)
Definition aggregate_graph (stones : gmap string Stone.t) (current_time : Z)
  : gmap string json :=
  graph_entry current_time <$> stones.

Definition desc_entry (d : json * json) : json :=
  JDict [("name", d.1); ("color", d.2)].

(** [Aggregator.aggregate_descs] *)
Definition aggregate_descs (descriptions : gmap string (json * json))
  : gmap string json :=
  desc_entry <$> descriptions.

End Aggregator.

(** ** Python values at run time: exceptions, subscripts, membership *)

Module Py.

(** The exceptions the handler can meet after decoding. [NonStringAddress]
    is not one of Python's: the handler would carry on with an address that
    is not a string, which the typed [Contact] and [World] do not
    represent, and the model stops there. *)
Inductive exn : Type :=
| IndexError
| KeyError (key : string)
| TypeError
| ValueError
| NonStringAddress.

Inductive result (A : Type) : Type :=
| Ret (a : A)
| Raise (e : exn).
Arguments Ret {A} a.
Arguments Raise {A} e.

#[global] Instance result_ret : MRet result := λ A, @Ret A.
#[global] Instance result_bind : MBind result := λ A B f m,
  match m with Ret a => f a | Raise e => Raise e end.

(** Lookup in a decoded dict. *)
Fixpoint dict_get (key : string) (d : list (string * json)) : option json :=
  match d with
  | [] => None
  | (k, v) :: d' => if decide (k = key) then Some v else dict_get key d'
  end.

(** [obj[key]] with a string key: only a dict can be subscripted so. *)
Definition getitem (obj : json) (key : string) : result json :=
  match obj with
  | JDict d => match dict_get key d with
               | Some v => Ret v
               | None => Raise (KeyError key)
               end
  | _ => Raise TypeError
  end.

Definition is_str (key : string) (v : json) : bool :=
  match v with JStr s => bool_decide (s = key) | _ => false end.

(** [key in obj]: key of a dict, substring of a string, element of a list. *)
Definition contains (key : string) (obj : json) : result bool :=
  match obj with
  | JDict d => Ret (bool_decide (is_Some (dict_get key d)))
  | JStr s => Ret (bool_decide (is_Some (String.index 0 key s)))
  | JList l => Ret (existsb (is_str key) l)
  | _ => Raise TypeError
  end.

(** [for x in obj]: the elements of a list, the keys of a dict, the
    characters of a string. *)
Definition iter (obj : json) : result (list json) :=
  match obj with
  | JList l => Ret l
  | JDict d => Ret ((λ kv, JStr kv.1) <$> d)
  | JStr s => Ret ((λ a, JStr (String a EmptyString)) <$> list_ascii_of_string s)
  | _ => Raise TypeError
  end.

(** [obj.keys()] of a dict, in order. *)
Definition keys (obj : json) : list string :=
  match obj with JDict d => d.*1 | _ => [] end.

(** An address read from a payload. *)
Definition address (v : json) : result string :=
  match v with JStr s => Ret s | _ => Raise NonStringAddress end.

(** [s[n:]] *)
Fixpoint slice_from (n : nat) (s : string) : string :=
  match n, s with
  | O, _ => s
  | S n', String _ s' => slice_from n' s'
  | S _, EmptyString => EmptyString
  end.

End Py.

(** ** Reading an aggregated document *)

Module Document.

(** [obj[key]] is there and is [v]. *)
Definition has (obj : json) (key : string) (v : json) : Prop :=
  Py.getitem obj key = Py.Ret v.

Definition shows_beacon (obj : json) (b : BeaconId.t) : Prop :=
  has obj "uuid" (BeaconId.uuid b) ∧
  has obj "major" (BeaconId.major b) ∧
  has obj "minor" (BeaconId.minor b).

(** An object that lists a contact by source address, beacon identity,
    average and transmit RSSI, under these six keys and no other. *)
Definition shows_contact (c : Contact.t) (obj : json) : Prop :=
  Py.keys obj = ["mac"; "uuid"; "major"; "minor"; "rssi_avg"; "rssi_tx"] ∧
  has obj "mac" (JStr (Contact.mac_address c)) ∧
  shows_beacon obj (Contact.b_address c) ∧
  has obj "rssi_avg" (Contact.rssi_avg c) ∧
  has obj "rssi_tx" (Contact.tx_rssi c).

(** The object [aggregate_graph] lists a contact by: the six keys of the
    stones view and the contact's age at [now]. *)
Definition shows_graph_contact (now : Z) (c : Contact.t) (obj : json) : Prop :=
  Py.keys obj = ["mac"; "uuid"; "major"; "minor"; "age"; "rssi_avg"; "rssi_tx"] ∧
  has obj "mac" (JStr (Contact.mac_address c)) ∧
  shows_beacon obj (Contact.b_address c) ∧
  has obj "age" (JInt (now - Contact.timestamp c)) ∧
  has obj "rssi_avg" (Contact.rssi_avg c) ∧
  has obj "rssi_tx" (Contact.tx_rssi c).

(** A JSON integer no greater than [bound]. *)
Definition at_most (bound : Z) (v : json) : Prop :=
  ∃ n, v = JInt n ∧ n <= bound.

End Document.

(** ** datetime

    A [datetime] without microseconds. [tzinfo] is [None] for a naive value
    and the offset from UTC in seconds otherwise. *)

Module DateTime.

Record t : Type := mk {
  year : Z; month : Z; day : Z;
  hour : Z; minute : Z; second : Z;
  tzinfo : option Z
}.

(** [tz.UTC] *)
Definition UTC : option Z := Some 0.

(** [datetime.replace(tzinfo=...)]: a new value, [self] is left as it is. *)
Definition replace (self : t) (tz : option Z) : t :=
  {| year := year self; month := month self; day := day self;
     hour := hour self; minute := minute self; second := second self;
     tzinfo := tz |}.

Definition is_leap (y : Z) : bool :=
  (y mod 4 =? 0) && (negb (y mod 100 =? 0) || (y mod 400 =? 0)).

Definition days_before_year (y : Z) : Z :=
  let y := y - 1 in y * 365 + y / 4 - y / 100 + y / 400.

Definition days_before_month (y m : Z) : Z :=
  nth (Z.to_nat m) [0; 0; 31; 59; 90; 120; 151; 181; 212; 243; 273; 304; 334] 0
  + (if (2 <? m) && is_leap y then 1 else 0).

(** Proleptic Gregorian ordinal, day 1 being 0001-01-01. *)
Definition toordinal (self : t) : Z :=
  days_before_year (year self) + days_before_month (year self) (month self) + day self.

(** Seconds from 1970-01-01T00:00:00 to the wall-clock fields of [self]. *)
Definition wall_seconds (self : t) : Z :=
  (toordinal self - 719163) * 86400
  + hour self * 3600 + minute self * 60 + second self.

(** [datetime.timestamp()]: a naive value is read in the local zone of the
    host, [local_utcoffset] seconds east of UTC; an aware one in its own.
    This is the library on a host whose zone keeps one offset all year and
    for dates the platform converts; a zone with daylight saving has an
    offset that depends on the date, which one constant does not give. *)
Definition timestamp (local_utcoffset : Z) (self : t) : Z :=
  match tzinfo self with
  | None => wall_seconds self - local_utcoffset
  | Some offset => wall_seconds self - offset
  end.

Definition digit (a : ascii) : option Z :=
  let n := Z.of_nat (nat_of_ascii a) in
  if (48 <=? n) && (n <=? 57) then Some (n - 48) else None.

(** The value of a run of decimal digits. *)
Fixpoint number (acc : Z) (ds : list ascii) : option Z :=
  match ds with
  | [] => Some acc
  | a :: ds' => match digit a with
                | Some d => number (acc * 10 + d) ds'
                | None => None
                end
  end.

Definition days_in_month (y m : Z) : Z :=
  if (m =? 2) && is_leap y then 29
  else nth (Z.to_nat m) [0; 31; 28; 31; 30; 31; 30; 31; 31; 30; 31; 30; 31] 0.

(** [datetime.strptime(s, '%Y-%m-%dT%H:%M:%SZ')] on a string of the strict
    form [YYYY-MM-DDTHH:MM:SSZ] with fields in range: the naive value with
    those fields. (The library also takes one-digit months, days, hours,
    minutes and seconds; this parser takes the strict form only.) *)
Definition strptime_strict (s : string) : option t :=
  match list_ascii_of_string s with
  | [y1; y2; y3; y4; d1; m1; m2; d2; dd1; dd2; sepT; h1; h2; c1; mi1; mi2; c2; s1; s2; z] =>
      if bool_decide (d1 = "-"%char ∧ d2 = "-"%char ∧ sepT = "T"%char ∧
                      c1 = ":"%char ∧ c2 = ":"%char ∧ z = "Z"%char)
      then
        y ← number 0 [y1; y2; y3; y4];
        m ← number 0 [m1; m2];
        d ← number 0 [dd1; dd2];
        h ← number 0 [h1; h2];
        mi ← number 0 [mi1; mi2];
        se ← number 0 [s1; s2];
        if (1 <=? y) && (1 <=? m) && (m <=? 12) && (1 <=? d) && (d <=? days_in_month y m)
           && (h <=? 23) && (mi <=? 59) && (se <=? 59)
        then Some (mk y m d h mi se None)
        else None
      else None
  | _ => None
  end.

End DateTime.

(** ** The libraries and the host the handler runs on *)

Class Runtime : Type := {
  (** [zlib.decompress]; [None] when it raises. *)
  zlib_decompress : list byte → option (list byte);
  (** [json.loads(payload.decode('utf-8'))]; [None] when either raises. *)
  json_loads : list byte → option json;
  (** [datetime.strptime(_, '%Y-%m-%dT%H:%M:%SZ')]; [None] for [ValueError]. *)
  strptime : string → option DateTime.t;
  (** Offset of the host's local time zone, seconds east of UTC. *)
  local_utcoffset : Z;
  (** The global [CONFIG]. *)
  CONFIG : Config.t
}.

(** ** class MqttService

    The broker client is outside the engine: what the handler hands to it
    and what it prints are collected as events. *)

Module MqttService.

Record t : Type := mk {
  world : World.t;
  channel_in_sensors_prefix : string;
  channel_in_nameupdate : string;
  channel_out_stones : string;
  channel_out_graph : string;
  channel_out_names : string;
  update_interval : Z;
  last_stone_update : Z
}.

Inductive event : Type :=
| (** [print('Could not decode message of length {} in topic {}')] *)
  Print_could_not_decode (length : nat) (topic : string)
| (** [self.client.publish(topic, payload, retain=...)], the payload
      being the document that was serialised *)
  Publish (topic : string) (payload : gmap string json) (retain : bool).

(** How a call of the handler ends: the service afterwards, what it printed
    and published, and the exception that left it, if one did. *)
Record outcome : Type := {
  final : t;
  events : list event;
  raised : option Py.exn
}.

Definition set_world (self : t) (w : World.t) : t :=
  {| world := w;
     channel_in_sensors_prefix := channel_in_sensors_prefix self;
     channel_in_nameupdate := channel_in_nameupdate self;
     channel_out_stones := channel_out_stones self;
     channel_out_graph := channel_out_graph self;
     channel_out_names := channel_out_names self;
     update_interval := update_interval self;
     last_stone_update := last_stone_update self |}.

Definition set_last_stone_update (self : t) (timestamp : Z) : t :=
  {| world := world self;
     channel_in_sensors_prefix := channel_in_sensors_prefix self;
     channel_in_nameupdate := channel_in_nameupdate self;
     channel_out_stones := channel_out_stones self;
     channel_out_graph := channel_out_graph self;
     channel_out_names := channel_out_names self;
     update_interval := update_interval self;
     last_stone_update := timestamp |}.

(** [publish_persistent] *)
Definition publish_persistent (topic : string) (payload : gmap string json) : event :=
  Publish topic payload true.

(** [payload[0] == 0x78 and payload[1] == 0x9c]; [None] is the [IndexError]
    of a payload too short for the subscripts that are evaluated. *)
Definition has_zlib_header (payload : list byte) : option bool :=
  match payload with
  | [] => None
  | b0 :: rest =>
      if Byte.eqb b0 x78
      then match rest with
           | [] => None
           | b1 :: _ => Some (Byte.eqb b1 x9c)
           end
      else Some false
  end.

(** A decoded document in which every address is a string: the [mac] of the
    document itself and the [mac] of every entry of its [data], where there
    is one. The handler asks nothing of an address; the typed [Contact] and
    [World] carry strings only, and on these documents the two agree. *)
Definition macs_are_strings (data : json) : Prop :=
  (∀ v, Py.getitem data "mac" = Py.Ret v → ∃ s, v = JStr s) ∧
  (∀ entries cts ct v,
     Py.getitem data "data" = Py.Ret entries → Py.iter entries = Py.Ret cts →
     ct ∈ cts → Py.getitem ct "mac" = Py.Ret v → ∃ s, v = JStr s).

Section Handler.

Context `{Runtime}.

(** [MqttService.__init__], the fields the handler reads. *)
Definition init (w : World.t) : t :=
  {| world := w;
     channel_in_sensors_prefix := default "JellingStone/" (Config.ChannelPrefixSensors CONFIG);
     channel_in_nameupdate := default "NameUpdate" (Config.ChannelNameUpdates CONFIG);
     channel_out_stones := default "Aggregated/Stones" (Config.ChannelStoneInfo CONFIG);
     channel_out_graph := default "Aggregated/Graph" (Config.ChannelGraphInfo CONFIG);
     channel_out_names := default "Aggregated/Names" (Config.ChannelNames CONFIG);
     update_interval := default 4 (Config.UpdateInterval CONFIG);
     last_stone_update := 0 |}.

(** The [try] block: the decoded data, or the value of [payload] when an
    exception was caught. *)
Definition decode (payload : list byte) : json + list byte :=
  match has_zlib_header payload with
  | None => inr payload
  | Some true =>
      match zlib_decompress payload with
      | None => inr payload
      | Some payload' =>
          match json_loads payload' with
          | Some data => inl data
          | None => inr payload'
          end
      end
  | Some false =>
      match json_loads payload with
      | Some data => inl data
      | None => inr payload
      end
  end.

(** A message whose payload, if it decodes, carries string addresses only. *)
Definition string_addressed (msg : string * list byte) : Prop :=
  ∀ data, decode msg.2 = inl data → macs_are_strings data.

(** Lines 187 to 190: the time string to epoch seconds. The value of
    [time_dt.replace(tzinfo=tz.UTC)] is dropped and [time_dt] stays naive. *)
Definition parse_time (time_string : json) : Py.result Z :=
  match time_string with
  | JStr s =>
      match strptime s with
      | Some time_dt =>
          let _ := DateTime.replace time_dt DateTime.UTC in
          Py.Ret (DateTime.timestamp local_utcoffset time_dt)
      | None => Py.Raise Py.ValueError
      end
  | _ => Py.Raise Py.TypeError
  end.

(** Line 195: the beacon identity of a contact entry. *)
Definition contact_bid (ct : json) : Py.result BeaconId.t :=
  has_uuid ← Py.contains "uuid" ct;
  has_major ← (if has_uuid : bool then Py.contains "major" ct else Py.Ret false);
  has_minor ← (if has_major : bool then Py.contains "minor" ct else Py.Ret false);
  if has_minor : bool
  then
    uuid ← Py.getitem ct "uuid";
    major ← Py.getitem ct "major";
    minor ← Py.getitem ct "minor";
    Py.Ret (BeaconId.mk uuid major minor)
  else Py.Ret (BeaconId.mk (JStr "") (JInt 0) (JInt 0)).

(** Lines 195 and 196: one pass of the loop over [data['data']]. *)
Definition parse_contact (timestamp : Z) (ct : json) : Py.result Contact.t :=
  bid ← contact_bid ct;
  mac ← Py.getitem ct "mac";
  rssi_min ← Py.getitem ct "min";
  rssi_max ← Py.getitem ct "max";
  rssi_avg ← Py.getitem ct "avg";
  tx_rssi ← Py.getitem ct "remoteRssi";
  mac_address ← Py.address mac;
  Py.Ret (Contact.mk timestamp mac_address bid rssi_min rssi_max rssi_avg tx_rssi).

(** Lines 183 to 197: the stone of a sensor report and its timestamp. *)
Definition parse_report (self : t) (topic : string) (data : json)
  : Py.result (Stone.t * Z) :=
  let mac_address := Py.slice_from (String.length (channel_in_sensors_prefix self)) topic in
  uuid ← Py.getitem data "uuid";
  major ← Py.getitem data "major";
  minor ← Py.getitem data "minor";
  comment ← Py.getitem data "comment";
  let stone := Stone.init mac_address (BeaconId.mk uuid major minor) comment in
  time_string ← Py.getitem data "timestamp";
  timestamp ← parse_time time_string;
  entries ← Py.getitem data "data";
  cts ← Py.iter entries;
  contacts ← mapM (parse_contact timestamp) cts;
  Py.Ret (Stone.update stone timestamp contacts, timestamp).

(** Line 213: the arguments of [update_desc]. *)
Definition parse_desc (data : json) : Py.result (string * json * json) :=
  mac ← Py.getitem data "mac";
  name ← Py.getitem data "name";
  color ← Py.getitem data "color";
  mac_address ← Py.address mac;
  Py.Ret (mac_address, name, color).

(** Lines 203 to 209, after the world was updated. *)
Definition publish_aggregated (self : t) (timestamp : Z) : outcome :=
  if decide (timestamp - last_stone_update self >= update_interval self)
  then
    let self' := set_last_stone_update self timestamp in
    let agg_stones := Aggregator.aggregate_stones CONFIG (World.stones (world self')) in
    let agg_graph := Aggregator.aggregate_graph (World.stones (world self')) timestamp in
    {| final := self';
       events := [publish_persistent (channel_out_stones self') agg_stones;
                  publish_persistent (channel_out_graph self') agg_graph];
       raised := None |}
  else {| final := self; events := []; raised := None |}.

(** [MqttService.on_message] *)
Definition on_message (self : t) (topic : string) (payload : list byte) : outcome :=
  match decode payload with
  | inr payload' =>
      {| final := self;
         events := [Print_could_not_decode (length payload') topic];
         raised := None |}
  | inl data =>
      if String.prefix (channel_in_sensors_prefix self) topic
      then
        match parse_report self topic data with
        | Py.Raise e => {| final := self; events := []; raised := Some e |}
        | Py.Ret (stone, timestamp) =>
            publish_aggregated
              (set_world self (World.update_stone (world self) stone)) timestamp
        end
      else if decide (topic = channel_in_nameupdate self)
      then
        match parse_desc data with
        | Py.Raise e => {| final := self; events := []; raised := Some e |}
        | Py.Ret (mac_address, name, color) =>
            let self' := set_world self (World.update_desc (world self) mac_address name color) in
            {| final := self';
               events := [publish_persistent (channel_out_names self')
                            (Aggregator.aggregate_descs (World.descs (world self')))];
               raised := None |}
        end
      else {| final := self; events := []; raised := None |}
  end.


(** The timestamp the handler reads from a message, when the message is a
    sensor report that decodes and parses. *)
Definition report_time (self : t) (topic : string) (payload : list byte) : option Z :=
  match decode payload with
  | inl data =>
      if String.prefix (channel_in_sensors_prefix self) topic
      then match parse_report self topic data with
           | Py.Ret (_, timestamp) => Some timestamp
           | Py.Raise _ => None
           end
      else None
  | inr _ => None
  end.

(** The handler called on a sequence of messages, oldest first, as long as
    none raises: the service at the end and all the events, or the
    exception of the first call that raised. *)
Fixpoint run (self : t) (msgs : list (string * list byte)) : outcome :=
  match msgs with
  | [] => {| final := self; events := []; raised := None |}
  | (topic, payload) :: rest =>
      let o := on_message self topic payload in
      match raised o with
      | Some e => o
      | None =>
          let o' := run (final o) rest in
          {| final := final o'; events := events o ++ events o'; raised := raised o' |}
      end
  end.

End Handler.

(** The keys the handler subscripts without a test: of a sensor report,
    of one of its contact entries, of a name update. *)
Definition report_fields : list string :=
  ["uuid"; "major"; "minor"; "comment"; "timestamp"; "data"].
Definition contact_fields : list string :=
  ["mac"; "min"; "max"; "avg"; "remoteRssi"].
Definition desc_fields : list string :=
  ["mac"; "name"; "color"].

(** A decoded dict without one of the given keys. *)
Definition lacks (fields : list string) (obj : json) : Prop :=
  ∃ d key, obj = JDict d ∧ key ∈ fields ∧ Py.dict_get key d = None.

(** An event the handler may leave behind: the line it prints for an
    undecodable payload, or a retained publication on one of the three
    outgoing channels. *)
Definition expected_event (self : t) (e : event) : Prop :=
  match e with
  | Print_could_not_decode _ _ => True
  | Publish topic _ retain =>
      retain = true ∧
      topic ∈ [channel_out_stones self; channel_out_graph self; channel_out_names self]
  end.

(** Two services that differ at most in the world and the throttle state. *)
Definition same_settings (self self' : t) : Prop :=
  channel_in_sensors_prefix self' = channel_in_sensors_prefix self ∧
  channel_in_nameupdate self' = channel_in_nameupdate self ∧
  channel_out_stones self' = channel_out_stones self ∧
  channel_out_graph self' = channel_out_graph self ∧
  channel_out_names self' = channel_out_names self ∧
  update_interval self' = update_interval self.


End MqttService.

(** ** A host for the worked examples

    UTC+1 without daylight saving, an empty configuration file (every
    option takes its fallback), the strict time parser, a [zlib] that
    rejects everything, and a [json.loads] tabulated on the payloads the
    examples below send: the JSON text [{}] as it is, the others under a
    short tag that stands for the JSON text of the document beside it. *)

Module Example.

Definition bytes (s : string) : list byte := list_byte_of_string s.

Definition beacon (n : Z) : list (string * json) :=
  [("uuid", JStr "u"); ("major", JInt n); ("minor", JInt 0)].

Definition rssi : list (string * json) :=
  [("min", JInt (-90)); ("max", JInt (-60)); ("avg", JInt (-75)); ("remoteRssi", JInt (-59))].

(** A sensor report with the given time string and contact entries. *)
Definition report (time : string) (entries : list json) : json :=
  JDict (beacon 1 ++ [("comment", JStr "hall"); ("timestamp", JStr time); ("data", JList entries)]).

Definition loads_table : list (string * json) :=
  [ ("{}", JDict []);
    ("epoch", report "1970-01-01T00:00:00Z" []);
    ("r100", report "1970-01-01T01:01:40Z" []);
    ("r103", report "1970-01-01T01:01:43Z" []);
    ("anon", report "1970-01-01T01:01:40Z" [JDict (("mac", JStr "aa") :: rssi)]);
    ("name-without-color", JDict [("mac", JStr "aa"); ("name", JStr "door")]) ].

Definition host : Runtime := {|
  zlib_decompress := λ _, None;
  json_loads := λ payload, Py.dict_get (string_of_list_byte payload) loads_table;
  strptime := DateTime.strptime_strict;
  local_utcoffset := 3600;
  CONFIG := Config.empty
|}.

Definition bid0 : BeaconId.t := BeaconId.mk (JStr "") (JInt 0) (JInt 0).

(** A contact of source [mac] seen at [timestamp]. *)
Definition contact (timestamp : Z) (mac : string) : Contact.t :=
  Contact.mk timestamp mac bid0 (JInt (-90)) (JInt (-60)) (JInt (-75)) (JInt (-59)).

Definition stone0 : Stone.t := Stone.init "s1" bid0 (JStr "hall").

(** A second host: the same zone and configuration, a [json.loads] that
    also knows a complete name update, a document that is a list and a
    report stamped 01:03:20, and a
    [zlib] that inflates one payload, the header bytes followed by [r100],
    to the payload [r100]. *)
Definition more_loads : list (string * json) :=
  loads_table ++
  [ ("name", JDict [("mac", JStr "aa"); ("name", JStr "door"); ("color", JStr "red")]);
    ("list", JList []);
    ("r200", report "1970-01-01T01:03:20Z" []) ].

Definition deflated : list byte := x78 :: x9c :: bytes "r100".

Definition host2 : Runtime := {|
  zlib_decompress := λ payload,
    if bool_decide (string_of_list_byte payload = string_of_list_byte deflated)
    then Some (bytes "r100") else None;
  json_loads := λ payload, Py.dict_get (string_of_list_byte payload) more_loads;
  strptime := DateTime.strptime_strict;
  local_utcoffset := 3600;
  CONFIG := Config.empty
|}.

End Example.

(** * Properties *)

Section StoneUpdate.

Implicit Types (s : Stone.t) (c ct : Contact.t) (cs new : list Contact.t) (T : Z).

Lemma put_macs cs ct :
  Contact.mac_address <$> Stone.put cs ct =
  filter (λ a, a ≠ Contact.mac_address ct) (Contact.mac_address <$> cs)
    ++ [Contact.mac_address ct].
Proof.
  unfold Stone.put. rewrite fmap_app. f_equal.
  induction cs as [|x cs IH]; [done|].
  rewrite fmap_cons, !filter_cons.
  destruct (decide (Contact.mac_address x ≠ Contact.mac_address ct));
    [rewrite fmap_cons|]; by rewrite IH.
Qed.

Lemma put_distinct cs ct :
  NoDup (Contact.mac_address <$> cs) →
  NoDup (Contact.mac_address <$> Stone.put cs ct).
Proof.
  intros Hnd. rewrite put_macs. apply NoDup_app. split_and!.
  - by apply NoDup_filter.
  - intros a [Ha _]%list_elem_of_filter ->%list_elem_of_singleton. done.
  - apply NoDup_singleton.
Qed.

Lemma foldl_put_distinct new cs :
  NoDup (Contact.mac_address <$> cs) →
  NoDup (Contact.mac_address <$> foldl Stone.put cs new).
Proof.
  revert cs. induction new as [|ct new IH]; intros cs Hnd; simpl; [done|].
  by apply IH, put_distinct.
Qed.

Lemma recent_distinct T cs :
  NoDup (Contact.mac_address <$> cs) →
  NoDup (Contact.mac_address <$> Stone.recent T cs).
Proof.
  unfold Stone.recent. induction cs as [|x cs IH]; [done|].
  rewrite fmap_cons, NoDup_cons. intros [Hx Hnd].
  rewrite filter_cons. case_decide; [|by apply IH].
  rewrite fmap_cons. apply NoDup_cons. split; [|by apply IH].
  intros Hin. apply Hx.
  apply list_elem_of_fmap in Hin as (y & -> & Hy).
  apply list_elem_of_filter in Hy as [_ Hy].
  apply list_elem_of_fmap. eauto.
Qed.

Lemma update_distinct s T new :
  Stone.distinct_sources s → Stone.distinct_sources (Stone.update s T new).
Proof.
  unfold Stone.distinct_sources. simpl. intros Hnd.
  by apply foldl_put_distinct, recent_distinct.
Qed.

Lemma foldl_put_Forall (P : Contact.t → Prop) new cs :
  Forall P cs → Forall P new → Forall P (foldl Stone.put cs new).
Proof.
  revert cs. induction new as [|ct new IH]; intros cs Hcs Hnew; simpl; [done|].
  apply Forall_cons in Hnew as [Hct Hnew]. apply IH; [|done].
  unfold Stone.put. apply Forall_app. split; [|by apply Forall_singleton].
  rewrite Forall_forall in Hcs |- *.
  intros x [_ Hx]%list_elem_of_filter. by apply Hcs.
Qed.

Lemma recent_Forall T cs :
  Forall (λ c, Contact.timestamp c >= T - 60) (Stone.recent T cs).
Proof.
  apply Forall_forall. intros c Hc.
  by apply list_elem_of_filter in Hc as [Hc _].
Qed.

Lemma update_within_window s T new :
  Forall (λ c, Contact.timestamp c >= T - 60) new →
  Stone.within_window (Stone.update s T new).
Proof.
  intros Hnew. unfold Stone.within_window. simpl.
  apply foldl_put_Forall; [apply recent_Forall | done].
Qed.

Lemma updates_distinct s calls :
  Stone.distinct_sources s → Stone.distinct_sources (Stone.updates s calls).
Proof.
  revert s. induction calls as [|[T new] calls IH]; intros s Hs; [done|].
  apply IH. by apply update_distinct.
Qed.

Lemma updates_within_window s calls :
  Stone.within_window s → Forall Stone.stamped_within calls →
  Stone.within_window (Stone.updates s calls).
Proof.
  intros Hs. induction calls as [|call calls _] using rev_ind; intros Hcalls; [done|].
  unfold Stone.updates. rewrite foldl_snoc.
  apply update_within_window.
  rewrite Forall_app, Forall_singleton in Hcalls.
  exact (proj2 Hcalls).
Qed.

(** The contacts of a stone that no new contact replaces go through the
    loop untouched. *)
Lemma elem_of_foldl_put_other c new cs :
  Forall (λ ct, Contact.mac_address ct ≠ Contact.mac_address c) new →
  c ∈ foldl Stone.put cs new ↔ c ∈ cs.
Proof.
  revert cs. induction new as [|ct new IH]; intros cs Hnew; [done|].
  apply Forall_cons in Hnew as [Hct Hnew]. simpl. rewrite IH by done.
  unfold Stone.put. rewrite elem_of_app, list_elem_of_filter, list_elem_of_singleton.
  split.
  - intros [[_ Hc]|Heq]; [done|]. subst c. by destruct Hct.
  - intros Hc. left. split; [congruence | done].
Qed.

Lemma elem_of_foldl_put new cs x :
  x ∈ foldl Stone.put cs new → x ∈ cs ∨ x ∈ new.
Proof.
  revert cs. induction new as [|ct new IH]; intros cs; simpl; [by left|].
  intros [Hx|Hx]%IH; [|right; by right].
  unfold Stone.put in Hx.
  apply elem_of_app in Hx as [[_ Hx]%list_elem_of_filter | ->%list_elem_of_singleton].
  - by left.
  - right. by left.
Qed.

Lemma foldl_put_app new l k :
  foldl Stone.put (l ++ k) new = filter (Stone.untouched new) l ++ foldl Stone.put k new.
Proof.
  revert l k. induction new as [|ct new IH]; intros l k; simpl.
  - f_equal. induction l as [|x l IHl]; [done|].
    rewrite filter_cons_True by apply Forall_nil_2. by f_equal.
  - replace (Stone.put (l ++ k) ct) with
      (filter (λ x, Contact.mac_address x ≠ Contact.mac_address ct) l ++ Stone.put k ct)
      by (unfold Stone.put; by rewrite filter_app, <-(assoc_L (++))).
    rewrite IH. f_equal. rewrite list_filter_filter.
    apply list_filter_iff. intros x. unfold Stone.untouched.
    rewrite Forall_cons. tauto.
Qed.

Lemma filter_all {A} (P : A → Prop) `{!∀ x, Decision (P x)} (l : list A) :
  Forall P l → filter P l = l.
Proof.
  induction 1 as [|x l Hx _ IH]; [done|].
  rewrite filter_cons_True by done. by f_equal.
Qed.

Lemma filter_none {A} (P : A → Prop) `{!∀ x, Decision (P x)} (l : list A) :
  Forall (λ x, ¬ P x) l → filter P l = [].
Proof.
  induction 1 as [|x l Hx _ IH]; [done|].
  by rewrite filter_cons_False.
Qed.

End StoneUpdate.

(** ** The contact window of a stone *)

(** C1, as stated, fails on the window half: [update] filters the contacts
    the stone already holds and appends the new ones as they come, so a new
    contact stamped 0 handed to an update at 100 stays in the collection
    although 0 < 100 - 60. *)
Lemma stale_new_contact_breaks_window :
  ¬ Stone.within_window
      (Stone.updates Example.stone0 [(100, [Example.contact 0 "aa"])]).
Proof.
  unfold Stone.within_window. cbn. rewrite Forall_singleton. cbn. lia.
Qed.

(** C1, amended: from a newly created stone and for every sequence of
    [update] calls, after each call no two contacts share a source address;
    and every contact's timestamp is at least [last_update - 60] provided
    the new contacts of the calls made so far were each stamped no earlier
    than 60 seconds before their call's timestamp. *)
Theorem updates_keep_invariant mac b cm (calls : list (Z * list Contact.t)) (n : nat) :
  let s := Stone.updates (Stone.init mac b cm) (take n calls) in
  Stone.distinct_sources s ∧
  (Forall Stone.stamped_within (take n calls) → Stone.within_window s).
Proof.
  split.
  - apply updates_distinct. apply NoDup_nil_2.
  - intros Hcalls. apply updates_within_window; [apply Forall_nil_2 | done].
Qed.

Lemma updates_keep_invariant_witness :
  let calls := [(100, [Example.contact 100 "aa"; Example.contact 100 "bb"]);
                (130, [Example.contact 130 "aa"])] in
  Forall Stone.stamped_within calls ∧
  Stone.distinct_sources (Stone.updates Example.stone0 calls) ∧
  Stone.within_window (Stone.updates Example.stone0 calls).
Proof.
  intros calls.
  assert (Hcalls : Forall Stone.stamped_within calls).
  { repeat constructor; cbn; lia. }
  split; [exact Hcalls|].
  destruct (updates_keep_invariant "s1" Example.bid0 (JStr "hall") calls 2) as [Hd Hw].
  split; [exact Hd | exact (Hw Hcalls)].
Defined.

(** C5: the eviction step of [update] at [T] keeps exactly the contacts
    stamped [T - 60] or later (the boundary is kept) and drops exactly those
    stamped earlier; and so does [update] as a whole, for every contact the
    stone already holds whose source the new contacts do not replace. *)
Theorem update_evicts_older_than_window (s : Stone.t) (T : Z)
    (new : list Contact.t) (c : Contact.t) :
  (c ∈ Stone.recent T (Stone.contacts s) ↔
     c ∈ Stone.contacts s ∧ Contact.timestamp c >= T - 60) ∧
  (c ∈ Stone.contacts s →
   Forall (λ ct, Contact.mac_address ct ≠ Contact.mac_address c) new →
   c ∈ Stone.contacts (Stone.update s T new) ↔ Contact.timestamp c >= T - 60).
Proof.
  assert (Hstep : c ∈ Stone.recent T (Stone.contacts s) ↔
                  c ∈ Stone.contacts s ∧ Contact.timestamp c >= T - 60).
  { unfold Stone.recent. rewrite list_elem_of_filter. tauto. }
  split; [exact Hstep|].
  intros Hc Hnew. cbn. rewrite elem_of_foldl_put_other by done. tauto.
Qed.

(** The example of C5: contacts from t=0 and t=30, an update at t=61. *)
Lemma update_evicts_older_than_window_witness :
  let s := Stone.mk "s1" Example.bid0 (JStr "hall") 30
             [Example.contact 0 "aa"; Example.contact 30 "bb"] in
  let s' := Stone.update s 61 [Example.contact 61 "cc"] in
  (Example.contact 0 "aa" ∉ Stone.contacts s') ∧
  (Example.contact 30 "bb" ∈ Stone.contacts s').
Proof.
  intros s s'. split.
  - intros Hin.
    apply (proj2 (update_evicts_older_than_window s 61 [Example.contact 61 "cc"] _)) in Hin.
    + cbn in Hin. lia.
    + apply list_elem_of_here.
    + apply Forall_singleton. discriminate.
  - apply (proj2 (update_evicts_older_than_window s 61 [Example.contact 61 "cc"] _)).
    + apply list_elem_of_further, list_elem_of_here.
    + apply Forall_singleton. discriminate.
    + cbn. lia.
Defined.

(** The boundary of C5: a contact exactly 60 seconds old is kept, one of
    61 seconds is not. *)
Example update_window_boundary :
  Stone.contacts
    (Stone.update
       (Stone.mk "s1" Example.bid0 (JStr "hall") 1
          [Example.contact 0 "aa"; Example.contact 1 "bb"])
       61 [])
  = [Example.contact 1 "bb"].
Proof. reflexivity. Qed.

(** C6: applying the same [update] a second time changes nothing, neither
    the contacts (as a list, hence as a set) nor the rest of the stone. *)
Theorem update_idempotent (s : Stone.t) (T : Z) (new : list Contact.t) :
  Stone.update (Stone.update s T new) T new = Stone.update s T new ∧
  ∀ c, c ∈ Stone.contacts (Stone.update (Stone.update s T new) T new)
       ↔ c ∈ Stone.contacts (Stone.update s T new).
Proof.
  assert (Heq : Stone.update (Stone.update s T new) T new = Stone.update s T new);
    [|split; [done | by rewrite Heq]].
  unfold Stone.update.
  cbn [Stone.contacts Stone.mac_address Stone.b_address Stone.comment Stone.last_update].
  f_equal.
  set (K := Stone.recent T (Stone.contacts s)).
  set (D := foldl Stone.put [] new).
  assert (HR : foldl Stone.put K new = filter (Stone.untouched new) K ++ D).
  { by rewrite <-(app_nil_r K) at 1; rewrite foldl_put_app. }
  rewrite HR. unfold Stone.recent at 1. rewrite filter_app.
  rewrite (filter_all _ (filter (Stone.untouched new) K)).
  2:{ apply Forall_forall. intros x [_ Hx]%list_elem_of_filter.
      by apply list_elem_of_filter in Hx as [Hx _]. }
  rewrite foldl_put_app, list_filter_filter.
  f_equal; [apply list_filter_iff; tauto|].
  rewrite <-(app_nil_r (filter _ D)), foldl_put_app. fold D.
  rewrite filter_none; [done|].
  apply Forall_forall. intros x [_ Hx]%list_elem_of_filter Hun.
  apply elem_of_foldl_put in Hx as [Hx|Hx]; [by apply elem_of_nil in Hx|].
  unfold Stone.untouched in Hun. rewrite Forall_forall in Hun.
  by apply (Hun x Hx).
Qed.

(** ** The shared store *)

(** C7: [update_stone] stores the stone as it is when its address is new;
    otherwise the stored stone becomes [existing.update(stone.last_update,
    stone.contacts)], which keeps the address, beacon identity and comment
    it had. Nothing else in the world changes. *)
Theorem update_stone_upsert (w : World.t) (stone : Stone.t) :
  let mac := Stone.mac_address stone in
  let w' := World.update_stone w stone in
  (World.stones w !! mac = None → World.stones w' !! mac = Some stone) ∧
  (∀ existing, World.stones w !! mac = Some existing →
     ∃ stored,
       World.stones w' !! mac = Some stored ∧
       stored = Stone.update existing (Stone.last_update stone) (Stone.contacts stone) ∧
       Stone.mac_address stored = Stone.mac_address existing ∧
       Stone.b_address stored = Stone.b_address existing ∧
       Stone.comment stored = Stone.comment existing) ∧
  (∀ other, other ≠ mac → World.stones w' !! other = World.stones w !! other) ∧
  World.descs w' = World.descs w.
Proof.
  intros mac w'. subst w'. unfold World.update_stone. fold mac.
  destruct (World.stones w !! mac) as [existing|] eqn:Hmac; cbn; split_and!.
  - done.
  - intros ? [= <-]. eexists. split; [apply lookup_insert_eq | done].
  - intros other Hne. by apply lookup_insert_ne.
  - done.
  - intros _. apply lookup_insert_eq.
  - done.
  - intros other Hne. by apply lookup_insert_ne.
  - done.
Qed.

Lemma update_stone_upsert_witness :
  let old := Stone.update (Stone.init "s1" Example.bid0 (JStr "hall")) 100
               [Example.contact 100 "aa"] in
  let new := Stone.update (Stone.init "s1" (BeaconId.mk (JStr "u") (JInt 1) (JInt 2))
                             (JStr "moved")) 130 [Example.contact 130 "bb"] in
  let w' := World.update_stone (World.update_stone World.init old) new in
  World.stones (World.update_stone World.init old) !! "s1" = Some old ∧
  ∃ stored, World.stones w' !! "s1" = Some stored ∧
            Stone.comment stored = JStr "hall" ∧
            Stone.b_address stored = Example.bid0 ∧
            Stone.last_update stored = 130 ∧
            Stone.contacts stored = [Example.contact 100 "aa"; Example.contact 130 "bb"].
Proof.
  intros old new w'.
  assert (Hold : World.stones (World.update_stone World.init old) !! "s1" = Some old).
  { apply (update_stone_upsert World.init old). apply lookup_empty. }
  split; [exact Hold|].
  destruct (update_stone_upsert (World.update_stone World.init old) new)
    as (_ & Hupd & _).
  destruct (Hupd old Hold) as (stored & Hstored & -> & _ & Hb & Hc).
  exists (Stone.update old (Stone.last_update new) (Stone.contacts new)).
  split; [exact Hstored|]. split; [exact Hc|]. split; [exact Hb|].
  split; reflexivity.
Defined.

(** ** The aggregated views *)

Lemma stone_contact_shows (c : Contact.t) :
  Document.shows_contact c (Aggregator.stone_contact c).
Proof. by repeat split. Qed.

(** C8: [aggregate_stones] has an entry for an address exactly when the
    stones map has a stone there; the entry carries the stone's beacon
    identity, comment and last update; with [StoneInfoIncludeContacts] on
    (the fallback) it also has the key [contacts] with one object per
    current contact, in order, showing source address, beacon identity,
    average and transmit RSSI and no timestamp; with the option off the
    entry has no [contacts] key. *)
Theorem aggregate_stones_view (cfg : Config.t) (stones : gmap string Stone.t)
    (mac : string) :
  let include_contacts := default true (Config.StoneInfoIncludeContacts cfg) in
  match stones !! mac with
  | None => Aggregator.aggregate_stones cfg stones !! mac = None
  | Some s =>
      ∃ entry,
        Aggregator.aggregate_stones cfg stones !! mac = Some entry ∧
        Document.shows_beacon entry (Stone.b_address s) ∧
        Document.has entry "comment" (Stone.comment s) ∧
        Document.has entry "last_seen" (JInt (Stone.last_update s)) ∧
        if include_contacts
        then
          Py.keys entry = ["uuid"; "major"; "minor"; "comment"; "last_seen"; "contacts"] ∧
          ∃ l, Document.has entry "contacts" (JList l) ∧
               Forall2 Document.shows_contact (Stone.contacts s) l
        else
          Py.keys entry = ["uuid"; "major"; "minor"; "comment"; "last_seen"] ∧
          Py.getitem entry "contacts" = Py.Raise (Py.KeyError "contacts")
  end.
Proof.
  intros inc. unfold Aggregator.aggregate_stones. fold inc.
  rewrite lookup_fmap. destruct (stones !! mac) as [s|]; [|done].
  cbn. eexists. split; [done|].
  split; [by repeat split|]. split; [done|]. split; [done|].
  destruct inc; cbn.
  - split; [done|]. eexists. split; [done|].
    apply Forall2_fmap_r, Forall_Forall2_diag, Forall_forall.
    intros c _. apply stone_contact_shows.
  - done.
Qed.

(** C8, the two settings on one stone with one contact. *)
Example aggregate_stones_without_contacts :
  let s := Stone.update Example.stone0 100 [Example.contact 100 "aa"] in
  let cfg := Config.mk None None None None None None (Some false) in
  (Aggregator.aggregate_stones cfg {[ "s1" := s ]} !! "s1" =
     Some (JDict [("uuid", JStr ""); ("major", JInt 0); ("minor", JInt 0);
                  ("comment", JStr "hall"); ("last_seen", JInt 100)])) ∧
  (Aggregator.aggregate_stones Config.empty {[ "s1" := s ]} !! "s1" =
     Some (JDict [("uuid", JStr ""); ("major", JInt 0); ("minor", JInt 0);
                  ("comment", JStr "hall"); ("last_seen", JInt 100);
                  ("contacts",
                   JList [JDict [("mac", JStr "aa"); ("uuid", JStr "");
                                 ("major", JInt 0); ("minor", JInt 0);
                                 ("rssi_avg", JInt (-75)); ("rssi_tx", JInt (-59))]])])).
Proof.
  intros s cfg. unfold Aggregator.aggregate_stones.
  by rewrite !lookup_fmap, !lookup_singleton_eq.
Qed.

(** C9: after [update_desc mac name color], [aggregate_descs] maps [mac]
    to the new name and colour, and every other address to what
    [aggregate_descs] gave it before (none is dropped, none appears). *)
Theorem update_desc_then_aggregate (w : World.t) (mac : string) (name color : json) :
  let before := Aggregator.aggregate_descs (World.descs w) in
  let after := Aggregator.aggregate_descs
                 (World.descs (World.update_desc w mac name color)) in
  after !! mac = Some (JDict [("name", name); ("color", color)]) ∧
  (∀ other, other ≠ mac → after !! other = before !! other) ∧
  World.stones (World.update_desc w mac name color) = World.stones w.
Proof.
  intros before after. subst before after.
  unfold Aggregator.aggregate_descs, World.update_desc. cbn.
  split_and!; [| |done].
  - by rewrite lookup_fmap, lookup_insert_eq.
  - intros other Hne. by rewrite !lookup_fmap, lookup_insert_ne.
Qed.

Lemma update_desc_then_aggregate_witness :
  let w := World.update_desc World.init "bb" (JStr "gate") (JStr "#00ff00") in
  let after := Aggregator.aggregate_descs
                 (World.descs (World.update_desc w "aa" (JStr "door") (JStr "#ff0000"))) in
  after !! "aa" = Some (JDict [("name", JStr "door"); ("color", JStr "#ff0000")]) ∧
  after !! "bb" = Some (JDict [("name", JStr "gate"); ("color", JStr "#00ff00")]).
Proof.
  intros w after.
  destruct (update_desc_then_aggregate w "aa" (JStr "door") (JStr "#ff0000"))
    as (Hnew & Hother & _).
  split; [exact Hnew|].
  subst after. rewrite (Hother "bb") by discriminate.
  subst w. unfold Aggregator.aggregate_descs, World.update_desc. cbn.
  by rewrite lookup_fmap, lookup_insert_eq.
Defined.

(** ** Decoding a sensor report *)

Lemma contact_bid_dict (d : list (string * json)) :
  MqttService.contact_bid (JDict d) =
  Py.Ret match Py.dict_get "uuid" d, Py.dict_get "major" d, Py.dict_get "minor" d with
         | Some uuid, Some major, Some minor => BeaconId.mk uuid major minor
         | _, _, _ => BeaconId.mk (JStr "") (JInt 0) (JInt 0)
         end.
Proof.
  unfold MqttService.contact_bid. cbn.
  by destruct (Py.dict_get "uuid" d), (Py.dict_get "major" d), (Py.dict_get "minor" d).
Qed.

(** C10: a contact entry with [mac], [min], [max], [avg] and [remoteRssi]
    gives a contact whether or not it has [uuid], [major] and [minor]: with
    all three its beacon identity is made of their values, and with any of
    them absent it is the identity ['', 0, 0]. *)
Theorem contact_identity_optional (timestamp : Z) (d : list (string * json))
    (mac : string) (rssi_min rssi_max rssi_avg tx_rssi : json) :
  Py.dict_get "mac" d = Some (JStr mac) →
  Py.dict_get "min" d = Some rssi_min →
  Py.dict_get "max" d = Some rssi_max →
  Py.dict_get "avg" d = Some rssi_avg →
  Py.dict_get "remoteRssi" d = Some tx_rssi →
  ∃ bid,
    MqttService.parse_contact timestamp (JDict d) =
      Py.Ret (Contact.mk timestamp mac bid rssi_min rssi_max rssi_avg tx_rssi) ∧
    (∀ uuid major minor,
       Py.dict_get "uuid" d = Some uuid → Py.dict_get "major" d = Some major →
       Py.dict_get "minor" d = Some minor →
       bid = BeaconId.mk uuid major minor) ∧
    (Py.dict_get "uuid" d = None ∨ Py.dict_get "major" d = None ∨
     Py.dict_get "minor" d = None →
     bid = BeaconId.mk (JStr "") (JInt 0) (JInt 0)).
Proof.
  intros Hmac Hmin Hmax Havg Htx. eexists. split.
  - unfold MqttService.parse_contact. rewrite contact_bid_dict. cbn.
    rewrite Hmac, Hmin, Hmax, Havg, Htx. cbn. reflexivity.
  - split.
    + by intros uuid major minor -> -> ->.
    + intros [->| [->| ->]]; [done| |].
      * by destruct (Py.dict_get "uuid" d).
      * by destruct (Py.dict_get "uuid" d), (Py.dict_get "major" d).
Qed.

Lemma contact_identity_optional_witness :
  MqttService.parse_contact 100 (JDict (("mac", JStr "aa") :: Example.rssi)) =
    Py.Ret (Example.contact 100 "aa") ∧
  MqttService.parse_contact 100
    (JDict (("mac", JStr "aa") :: Example.beacon 7 ++ Example.rssi)) =
    Py.Ret (Contact.mk 100 "aa" (BeaconId.mk (JStr "u") (JInt 7) (JInt 0))
              (JInt (-90)) (JInt (-60)) (JInt (-75)) (JInt (-59))).
Proof.
  split.
  - destruct (contact_identity_optional 100 (("mac", JStr "aa") :: Example.rssi) "aa"
                (JInt (-90)) (JInt (-60)) (JInt (-75)) (JInt (-59))
                eq_refl eq_refl eq_refl eq_refl eq_refl) as (bid & Hc & _ & Habsent).
    rewrite Hc, (Habsent (or_introl eq_refl)). reflexivity.
  - destruct (contact_identity_optional 100
                (("mac", JStr "aa") :: Example.beacon 7 ++ Example.rssi) "aa"
                (JInt (-90)) (JInt (-60)) (JInt (-75)) (JInt (-59))
                eq_refl eq_refl eq_refl eq_refl eq_refl) as (bid & Hc & Hpresent & _).
    rewrite Hc, (Hpresent (JStr "u") (JInt 7) (JInt 0) eq_refl eq_refl eq_refl).
    reflexivity.
Defined.

(** An entry that is not a dict never gives a contact: the membership test
    or the first subscript raises [TypeError]. *)
Lemma parse_contact_not_dict (timestamp : Z) (ct : json) :
  (∀ d, ct ≠ JDict d) →
  MqttService.parse_contact timestamp ct = Py.Raise Py.TypeError.
Proof.
  intros Hct. unfold MqttService.parse_contact, MqttService.contact_bid.
  destruct ct as [| | | s | l | d]; [done | done | done | | | by destruct (Hct d)]; cbn.
  - repeat (destruct (bool_decide _); cbn); reflexivity.
  - repeat (destruct (existsb _ l); cbn); reflexivity.
Qed.

Section Clock.

Context `{Runtime}.

(** What the handler makes of a time string: the wall-clock reading of its
    fields, shifted by the offset of the host's zone. *)
Lemma parse_time_naive (s : string) (time_dt : DateTime.t) :
  strptime s = Some time_dt → DateTime.tzinfo time_dt = None →
  MqttService.parse_time (JStr s) =
    Py.Ret (DateTime.wall_seconds time_dt - local_utcoffset).
Proof.
  intros Hs Htz. unfold MqttService.parse_time, DateTime.timestamp.
  by rewrite Hs, Htz.
Qed.

(** Had the value of [replace] been kept, the reading would be UTC. *)
Lemma timestamp_replace_UTC (time_dt : DateTime.t) :
  DateTime.timestamp local_utcoffset (DateTime.replace time_dt DateTime.UTC) =
    DateTime.wall_seconds time_dt.
Proof.
  unfold DateTime.timestamp. cbn.
  unfold DateTime.wall_seconds, DateTime.toordinal. cbn. lia.
Qed.

End Clock.

(** C2, on a host one hour east of UTC: the report stamped
    [1970-01-01T00:00:00Z], whose UTC epoch value is 0, is given the
    timestamp -3600, and the stone it updates carries that value. *)
Theorem report_time_read_in_local_zone :
  let H := Example.host in
  let svc := MqttService.init World.init in
  DateTime.timestamp local_utcoffset
    (DateTime.replace (DateTime.mk 1970 1 1 0 0 0 None) DateTime.UTC) = 0 ∧
  MqttService.parse_time (JStr "1970-01-01T00:00:00Z") = Py.Ret (-3600) ∧
  Stone.last_update <$>
    (World.stones (MqttService.world (MqttService.final
       (MqttService.on_message svc "JellingStone/s1" (Example.bytes "epoch")))) !! "s1")
    = Some (-3600).
Proof. intros H svc. split; [|split]; vm_compute; reflexivity. Qed.

(** ** The message handler *)

Section Handler.

Context `{Runtime}.

Implicit Types (self : MqttService.t) (topic : string) (payload : list byte).

(** When the [try] block fails: a payload too short for the header test, a
    zlib header on data that does not decompress, or bytes (decompressed or
    not) that are not a JSON document. *)
Lemma decode_fails payload p :
  MqttService.decode payload = inr p ↔
  (MqttService.has_zlib_header payload = None ∧ p = payload) ∨
  (MqttService.has_zlib_header payload = Some true ∧
   zlib_decompress payload = None ∧ p = payload) ∨
  (MqttService.has_zlib_header payload = Some true ∧
   zlib_decompress payload = Some p ∧ json_loads p = None) ∨
  (MqttService.has_zlib_header payload = Some false ∧
   json_loads payload = None ∧ p = payload).
Proof.
  unfold MqttService.decode.
  destruct (MqttService.has_zlib_header payload) as [[]|];
    [destruct (zlib_decompress payload) as [p'|] eqn:Hz;
       [destruct (json_loads p') eqn:Hj|]
    |destruct (json_loads payload) eqn:Hj|];
    (split;
     [intros Hp; simplify_eq; eauto 10
     |intros Hp; destruct_or!; destruct_and!; simplify_eq; done]).
Qed.

Lemma on_message_undecodable self topic payload p :
  MqttService.decode payload = inr p →
  MqttService.on_message self topic payload =
    {| MqttService.final := self;
       MqttService.events := [MqttService.Print_could_not_decode (length p) topic];
       MqttService.raised := None |}.
Proof. intros Hp. unfold MqttService.on_message. by rewrite Hp. Qed.

Lemma publish_aggregated_returns self timestamp :
  MqttService.raised (MqttService.publish_aggregated self timestamp) = None.
Proof. unfold MqttService.publish_aggregated. by case_decide. Qed.

(** An exception leaves the handler before anything was stored, printed or
    published. *)
Lemma on_message_raised self topic payload e :
  MqttService.raised (MqttService.on_message self topic payload) = Some e →
  MqttService.on_message self topic payload =
    {| MqttService.final := self; MqttService.events := [];
       MqttService.raised := Some e |}.
Proof.
  unfold MqttService.on_message.
  destruct (MqttService.decode payload) as [data|p]; [|done].
  destruct (String.prefix _ topic).
  - destruct (MqttService.parse_report self topic data) as [[stone t]|e'].
    + by rewrite publish_aggregated_returns.
    + by intros [= ->].
  - case_decide; [|done].
    destruct (MqttService.parse_desc data) as [[[mac name] color]|e'];
      [done | by intros [= ->]].
Qed.

Lemma parse_report_lacks self topic data :
  MqttService.lacks MqttService.report_fields data →
  ∃ e, MqttService.parse_report self topic data = Py.Raise e.
Proof.
  intros (d & key & -> & Hkey & Hnone).
  unfold MqttService.parse_report. cbn.
  destruct (Py.dict_get "uuid" d) eqn:?; [cbn|by eauto].
  destruct (Py.dict_get "major" d) eqn:?; [cbn|by eauto].
  destruct (Py.dict_get "minor" d) eqn:?; [cbn|by eauto].
  destruct (Py.dict_get "comment" d) eqn:?; [cbn|by eauto].
  destruct (Py.dict_get "timestamp" d) as [time_string|] eqn:?; [cbn|by eauto].
  destruct (MqttService.parse_time time_string); [cbn|by eauto].
  destruct (Py.dict_get "data" d) eqn:?; [cbn|by eauto].
  unfold MqttService.report_fields in Hkey.
  repeat (apply elem_of_cons in Hkey as [->|Hkey]; [congruence|]).
  by apply elem_of_nil in Hkey.
Qed.

Lemma parse_contact_lacks timestamp ct :
  MqttService.lacks MqttService.contact_fields ct →
  ∃ e, MqttService.parse_contact timestamp ct = Py.Raise e.
Proof.
  intros (d & key & -> & Hkey & Hnone).
  unfold MqttService.parse_contact. rewrite contact_bid_dict. cbn.
  destruct (Py.dict_get "mac" d) as [mac|] eqn:?; [cbn|by eauto].
  destruct (Py.dict_get "min" d) eqn:?; [cbn|by eauto].
  destruct (Py.dict_get "max" d) eqn:?; [cbn|by eauto].
  destruct (Py.dict_get "avg" d) eqn:?; [cbn|by eauto].
  destruct (Py.dict_get "remoteRssi" d) eqn:?; [cbn|by eauto].
  unfold MqttService.contact_fields in Hkey.
  repeat (apply elem_of_cons in Hkey as [->|Hkey]; [congruence|]).
  by apply elem_of_nil in Hkey.
Qed.

Lemma mapM_raises {A B} (f : A → Py.result B) (l : list A) (x : A) :
  x ∈ l → (∃ e, f x = Py.Raise e) → ∃ e, mapM f l = Py.Raise e.
Proof.
  intros Hx [e He]. induction l as [|y l IH]; [by apply elem_of_nil in Hx|].
  cbn. destruct (f y) as [b|e'] eqn:Hy; cbn; [|by eauto].
  apply elem_of_cons in Hx as [<-|Hx]; [congruence|].
  destruct (IH Hx) as [e'' ->]. cbn. eauto.
Qed.

Lemma parse_report_entry_lacks self topic data entries ct :
  Py.getitem data "data" = Py.Ret (JList entries) → ct ∈ entries →
  MqttService.lacks MqttService.contact_fields ct →
  ∃ e, MqttService.parse_report self topic data = Py.Raise e.
Proof.
  intros Hdata Hct Hlacks. unfold MqttService.parse_report.
  destruct (Py.getitem data "uuid"); [cbn|by eauto].
  destruct (Py.getitem data "major"); [cbn|by eauto].
  destruct (Py.getitem data "minor"); [cbn|by eauto].
  destruct (Py.getitem data "comment"); [cbn|by eauto].
  destruct (Py.getitem data "timestamp") as [time_string|]; [cbn|by eauto].
  destruct (MqttService.parse_time time_string) as [timestamp|]; [cbn|by eauto].
  rewrite Hdata. cbn.
  destruct (mapM_raises (MqttService.parse_contact timestamp) entries ct Hct)
    as [e ->]; [by apply parse_contact_lacks | cbn; eauto].
Qed.

Lemma parse_desc_lacks data :
  MqttService.lacks MqttService.desc_fields data →
  ∃ e, MqttService.parse_desc data = Py.Raise e.
Proof.
  intros (d & key & -> & Hkey & Hnone).
  unfold MqttService.parse_desc. cbn.
  destruct (Py.dict_get "mac" d) as [mac|] eqn:?; [cbn|by eauto].
  destruct (Py.dict_get "name" d) eqn:?; [cbn|by eauto].
  destruct (Py.dict_get "color" d) eqn:?; [cbn|by eauto].
  unfold MqttService.desc_fields in Hkey.
  repeat (apply elem_of_cons in Hkey as [->|Hkey]; [congruence|]).
  by apply elem_of_nil in Hkey.
Qed.

End Handler.

(** C3, as stated, fails for a missing required field: the sensor report
    [{}] decodes, and the handler then leaves through [KeyError] on the
    first subscript, without printing anything. *)
Lemma missing_field_raises_unlogged :
  let H := Example.host in
  let svc := MqttService.init World.init in
  MqttService.decode (Example.bytes "{}") = inl (JDict []) ∧
  MqttService.lacks MqttService.report_fields (JDict []) ∧
  MqttService.on_message svc "JellingStone/s1" (Example.bytes "{}") =
    {| MqttService.final := svc; MqttService.events := [];
       MqttService.raised := Some (Py.KeyError "uuid") |}.
Proof.
  intros H svc. split; [reflexivity|]. split; [|reflexivity].
  exists [], "uuid". split; [done|]. split; [apply list_elem_of_here | done].
Qed.

(** C3, amended: a message whose decoding fails (header test, decompression
    or JSON parsing) is logged and dropped: the handler returns without an
    exception and the service, with its world, is as before. A message that
    decodes but lacks a required field (of a sensor report, of one of its
    contact entries, of a name update) is not logged: an exception leaves
    the handler, and the service, with its world, is as before. *)
Theorem failed_message_keeps_world `{Runtime} (self : MqttService.t)
    (topic : string) (payload : list byte) :
  (∀ p, MqttService.decode payload = inr p →
     MqttService.on_message self topic payload =
       {| MqttService.final := self;
          MqttService.events := [MqttService.Print_could_not_decode (length p) topic];
          MqttService.raised := None |}) ∧
  (∀ data, MqttService.decode payload = inl data →
     (String.prefix (MqttService.channel_in_sensors_prefix self) topic = true ∧
      (MqttService.lacks MqttService.report_fields data ∨
       ∃ entries ct, Py.getitem data "data" = Py.Ret (JList entries) ∧
                     ct ∈ entries ∧ MqttService.lacks MqttService.contact_fields ct)) ∨
     (String.prefix (MqttService.channel_in_sensors_prefix self) topic = false ∧
      topic = MqttService.channel_in_nameupdate self ∧
      MqttService.lacks MqttService.desc_fields data) →
     ∃ e, MqttService.on_message self topic payload =
            {| MqttService.final := self; MqttService.events := [];
               MqttService.raised := Some e |}).
Proof.
  split; [intros p; apply on_message_undecodable|].
  intros data Hdata Hcase.
  assert (∃ e, MqttService.raised (MqttService.on_message self topic payload) = Some e)
    as [e He]; [|exists e; by apply on_message_raised].
  unfold MqttService.on_message. rewrite Hdata.
  destruct Hcase as [[-> Hlacks]|(-> & Htopic & Hlacks)].
  - assert (∃ e, MqttService.parse_report self topic data = Py.Raise e) as [e ->].
    { destruct Hlacks as [?|(entries & ct & ? & ? & ?)];
        [by apply parse_report_lacks | by eapply parse_report_entry_lacks]. }
    by exists e.
  - rewrite decide_True by done.
    destruct (parse_desc_lacks data Hlacks) as [e ->]. by exists e.
Qed.

Lemma failed_message_keeps_world_witness :
  let H := Example.host in
  let svc := MqttService.init World.init in
  MqttService.on_message svc "JellingStone/s1" (Example.bytes "zz") =
    {| MqttService.final := svc;
       MqttService.events := [MqttService.Print_could_not_decode 2 "JellingStone/s1"];
       MqttService.raised := None |} ∧
  ∃ e, MqttService.on_message svc "NameUpdate" (Example.bytes "name-without-color") =
         {| MqttService.final := svc; MqttService.events := [];
            MqttService.raised := Some e |}.
Proof.
  intros H svc. split.
  - exact (proj1 (failed_message_keeps_world svc "JellingStone/s1" (Example.bytes "zz"))
             (Example.bytes "zz") eq_refl).
  - apply (proj2 (failed_message_keeps_world svc "NameUpdate"
                    (Example.bytes "name-without-color"))
             (JDict [("mac", JStr "aa"); ("name", JStr "door")]));
      [vm_compute; reflexivity|].
    right. split; [reflexivity|]. split; [reflexivity|].
    exists [("mac", JStr "aa"); ("name", JStr "door")], "color".
    split; [reflexivity|]. split; [|reflexivity].
    apply list_elem_of_further, list_elem_of_further, list_elem_of_here.
Defined.

(** ** The publication throttle *)

Section Throttle.

Context `{Runtime}.

Implicit Types (self : MqttService.t) (topic : string) (payload : list byte).

Lemma on_message_report self topic payload t :
  MqttService.report_time self topic payload = Some t →
  ∃ stone,
    MqttService.on_message self topic payload =
      MqttService.publish_aggregated
        (MqttService.set_world self (World.update_stone (MqttService.world self) stone)) t.
Proof.
  unfold MqttService.report_time, MqttService.on_message.
  destruct (MqttService.decode payload) as [data|]; [|done].
  destruct (String.prefix _ topic); [|done].
  destruct (MqttService.parse_report self topic data) as [[stone t']|]; [|done].
  intros [= ->]. by exists stone.
Qed.

(** The time read from a report depends on the service through the topic
    prefix only. *)
Lemma report_time_prefix self self' topic payload :
  MqttService.channel_in_sensors_prefix self' = MqttService.channel_in_sensors_prefix self →
  MqttService.report_time self' topic payload = MqttService.report_time self topic payload.
Proof.
  intros Hp. unfold MqttService.report_time, MqttService.parse_report.
  by rewrite Hp.
Qed.

End Throttle.

(** ** The stones the handler stores

    The handler stamps the contacts of a report with the report's own
    timestamp, so every [update] it causes meets the premise under which
    the window invariant is kept. *)

Section Pipeline.

Context `{Runtime}.

Lemma parse_contact_stamp (timestamp : Z) (ct : json) (c : Contact.t) :
  MqttService.parse_contact timestamp ct = Py.Ret c → Contact.timestamp c = timestamp.
Proof.
  unfold MqttService.parse_contact.
  destruct (MqttService.contact_bid ct); [cbn|done].
  repeat (match goal with
          | |- context [Py.getitem ?o ?k] => destruct (Py.getitem o k); [cbn|done]
          end).
  match goal with |- context [Py.address ?v] => destruct (Py.address v); [cbn|done] end.
  by intros [= <-].
Qed.

Lemma mapM_Forall {A B} (f : A → Py.result B) (P : B → Prop) (l : list A) (k : list B) :
  (∀ x y, f x = Py.Ret y → P y) → mapM f l = Py.Ret k → Forall P k.
Proof.
  intros Hf. revert k. induction l as [|x l IH]; intros k; cbn.
  - intros [= <-]. apply Forall_nil_2.
  - destruct (f x) as [y|] eqn:Hy; [cbn|done].
    destruct (mapM f l) as [k'|]; [cbn|done].
    intros [= <-]. apply Forall_cons. eauto.
Qed.

Lemma parse_report_stone (self : MqttService.t) (topic : string) (data : json)
    (stone : Stone.t) (t : Z) :
  MqttService.parse_report self topic data = Py.Ret (stone, t) →
  Stone.last_update stone = t ∧
  Stone.distinct_sources stone ∧
  Forall (λ c, Contact.timestamp c = t) (Stone.contacts stone).
Proof.
  unfold MqttService.parse_report.
  repeat (match goal with
          | |- context [Py.getitem ?o ?k] => destruct (Py.getitem o k); [cbn|done]
          end;
          try match goal with
          | |- context [MqttService.parse_time ?v] =>
              destruct (MqttService.parse_time v) as [timestamp|]; [cbn|done]
          end).
  match goal with |- context [Py.iter ?v] => destruct (Py.iter v) as [cts|]; [cbn|done] end.
  destruct (mapM _ cts) as [contacts|] eqn:Hcontacts; [cbn|done].
  intros [= <- <-]. split; [done|]. split.
  - apply update_distinct, NoDup_nil_2.
  - apply foldl_put_Forall; [apply Forall_nil_2|].
    eapply mapM_Forall; [|exact Hcontacts]. apply parse_contact_stamp.
Qed.

Lemma update_stone_well_kept (w : World.t) (stone : Stone.t) :
  World.well_kept w →
  Stone.distinct_sources stone →
  Forall (λ c, Contact.timestamp c = Stone.last_update stone) (Stone.contacts stone) →
  World.well_kept (World.update_stone w stone).
Proof.
  intros Hw Hd Hstamp.
  assert (Hwin : Forall (λ c, Contact.timestamp c >= Stone.last_update stone - 60)
                   (Stone.contacts stone)).
  { eapply Forall_impl; [exact Hstamp|]. intros c Hc. cbn in Hc. lia. }
  unfold World.well_kept, World.update_stone in *.
  destruct (World.stones w !! Stone.mac_address stone) as [existing|] eqn:Hmac; cbn.
  - apply map_Forall_insert_2; [|done]. split.
    + apply update_distinct. by apply (Hw _ _ Hmac).
    + by apply update_within_window.
  - apply map_Forall_insert_2; [|done]. split; [done|exact Hwin].
Qed.

(** Whatever message arrives, the stones of the world keep distinct
    sources and stay inside their window. *)
Lemma on_message_well_kept (self : MqttService.t) (topic : string) (payload : list byte) :
  World.well_kept (MqttService.world self) →
  World.well_kept
    (MqttService.world (MqttService.final (MqttService.on_message self topic payload))).
Proof.
  intros Hw. unfold MqttService.on_message.
  destruct (MqttService.decode payload) as [data|]; [|done].
  destruct (String.prefix _ topic).
  - destruct (MqttService.parse_report self topic data) as [[stone t]|] eqn:Hr; [|done].
    apply parse_report_stone in Hr as (<- & Hd & Hstamp).
    unfold MqttService.publish_aggregated.
    case_decide; cbn; by apply update_stone_well_kept.
  - case_decide; [|done].
    by destruct (MqttService.parse_desc data) as [[[mac name] color]|].
Qed.

End Pipeline.

(** * Further properties *)

(** ** More on [Stone.update] *)

Section StoneUpdateMore.

Implicit Types (s : Stone.t) (c ct : Contact.t) (cs new : list Contact.t) (T : Z).

Lemma put_fresh cs ct :
  Contact.mac_address ct ∉ (Contact.mac_address <$> cs) → Stone.put cs ct = cs ++ [ct].
Proof.
  intros Hct. unfold Stone.put. f_equal. apply filter_all, Forall_forall.
  intros x Hx Heq. apply Hct. rewrite <-Heq. by apply list_elem_of_fmap_2.
Qed.

Lemma foldl_put_distinct_new new cs :
  NoDup (Contact.mac_address <$> cs ++ new) → foldl Stone.put cs new = cs ++ new.
Proof.
  revert cs. induction new as [|ct new IH]; intros cs Hnd; cbn.
  - by rewrite app_nil_r.
  - rewrite (cons_middle ct cs new), (assoc_L (++)) in Hnd |- *.
    rewrite put_fresh; [by apply IH|].
    rewrite !fmap_app in Hnd.
    apply NoDup_app in Hnd as [Hnd _].
    apply NoDup_app in Hnd as (_ & Hdisj & _).
    intros Hin. apply (Hdisj _ Hin). cbn. apply list_elem_of_here.
Qed.

End StoneUpdateMore.

(** X1: when the new contacts have pairwise distinct sources, the stone
    holds after [update] the contacts it kept (inside the window and not
    replaced), in their old order, followed by the new contacts in the order
    they were given. *)
Theorem update_appends_new (s : Stone.t) (T : Z) (new : list Contact.t) :
  NoDup (Contact.mac_address <$> new) →
  Stone.contacts (Stone.update s T new) =
    filter (Stone.untouched new) (Stone.recent T (Stone.contacts s)) ++ new.
Proof.
  intros Hnd. cbn.
  rewrite <-(app_nil_r (Stone.recent T (Stone.contacts s))) at 1.
  rewrite foldl_put_app. f_equal. by apply (foldl_put_distinct_new new []).
Qed.

Lemma update_appends_new_witness :
  let s := Stone.mk "s1" Example.bid0 (JStr "hall") 30
             [Example.contact 0 "aa"; Example.contact 20 "bb"; Example.contact 30 "cc"] in
  Stone.contacts
    (Stone.update s 61 [Example.contact 61 "dd"; Example.contact 61 "bb"]) =
  [Example.contact 30 "cc"; Example.contact 61 "dd"; Example.contact 61 "bb"].
Proof.
  intros s.
  rewrite (update_appends_new s 61 [Example.contact 61 "dd"; Example.contact 61 "bb"]).
  - reflexivity.
  - cbn. apply NoDup_cons. split; [|apply NoDup_singleton].
    intros Hin. apply list_elem_of_singleton in Hin. discriminate Hin.
Defined.

Lemma from_source_put (m : string) (cs : list Contact.t) (ct : Contact.t) :
  Stone.from_source m (Stone.put cs ct) =
    if decide (Contact.mac_address ct = m) then [ct] else Stone.from_source m cs.
Proof.
  unfold Stone.from_source, Stone.put. rewrite filter_app, list_filter_filter.
  case_decide as Hm.
  - rewrite filter_none; [by rewrite filter_cons_True|].
    apply Forall_forall. intros x _ [? ?]. congruence.
  - rewrite filter_cons_False, filter_nil, app_nil_r by done.
    apply list_filter_iff. intros x. split; [tauto|]. intros <-. split; [done|].
    intros Heq. by rewrite Heq in Hm.
Qed.

Lemma from_source_foldl_put (m : string) (new cs : list Contact.t) :
  m ∈ (Contact.mac_address <$> new) →
  ∃ c, last (Stone.from_source m new) = Some c ∧
       Stone.from_source m (foldl Stone.put cs new) = [c].
Proof.
  induction new as [|x new IH] using rev_ind; [by intros ?%elem_of_nil|].
  intros Hm. rewrite foldl_snoc, from_source_put.
  unfold Stone.from_source at 1. rewrite filter_app, filter_cons, filter_nil.
  case_decide as Hx.
  - exists x. by rewrite last_snoc.
  - rewrite app_nil_r. apply IH.
    rewrite fmap_app, elem_of_app in Hm. destruct Hm as [Hm|Hm]; [done|].
    cbn in Hm. apply list_elem_of_singleton in Hm. congruence.
Qed.

(** X2: whatever the stone held and however often a source occurs among
    the new contacts, after [update] the stone holds exactly one contact of
    each source that was handed in: the last one given for that source. *)
Theorem update_last_of_source_wins (s : Stone.t) (T : Z) (new : list Contact.t)
    (ct : Contact.t) :
  ct ∈ new →
  ∃ c, last (Stone.from_source (Contact.mac_address ct) new) = Some c ∧
       Stone.from_source (Contact.mac_address ct) (Stone.contacts (Stone.update s T new)) = [c].
Proof.
  intros Hct. apply from_source_foldl_put. by apply list_elem_of_fmap_2.
Qed.

Lemma update_last_of_source_wins_witness :
  let s := Stone.update Example.stone0 100 [Example.contact 100 "aa"] in
  let new := [Example.contact 110 "aa"; Example.contact 110 "bb"; Example.contact 120 "aa"] in
  Stone.from_source "aa" (Stone.contacts (Stone.update s 120 new)) = [Example.contact 120 "aa"].
Proof.
  intros s new.
  destruct (update_last_of_source_wins s 120 new (Example.contact 110 "aa"))
    as (c & Hlast & Hc); [apply list_elem_of_here|].
  cbn in Hlast. injection Hlast as <-. exact Hc.
Defined.

Lemma recent_recent (T1 T2 : Z) (cs : list Contact.t) :
  T1 <= T2 → Stone.recent T2 (Stone.recent T1 cs) = Stone.recent T2 cs.
Proof.
  intros HT. unfold Stone.recent. rewrite list_filter_filter.
  apply list_filter_iff. intros c. lia.
Qed.

(** X3: a report without contacts followed by a later report gives the
    same stone as the later report alone: evictions compose. *)
Theorem update_after_empty_update (s : Stone.t) (T1 T2 : Z) (new : list Contact.t) :
  T1 <= T2 →
  Stone.update (Stone.update s T1 []) T2 new = Stone.update s T2 new.
Proof.
  intros HT. unfold Stone.update.
  cbn [Stone.contacts Stone.mac_address Stone.b_address Stone.comment
       Stone.last_update foldl].
  by rewrite recent_recent.
Qed.

Lemma update_after_empty_update_witness :
  let s := Stone.mk "s1" Example.bid0 (JStr "hall") 30
             [Example.contact 0 "aa"; Example.contact 30 "bb"] in
  Stone.update (Stone.update s 61 []) 95 [Example.contact 95 "cc"] =
  Stone.update s 95 [Example.contact 95 "cc"].
Proof. intros s. apply update_after_empty_update. lia. Defined.

(** X4: an update stamped no later than the stone's last one evicts
    nothing from a stone that is inside its window; it only moves
    [last_update] back. *)
Theorem update_out_of_order_evicts_nothing (s : Stone.t) (T : Z) :
  Stone.within_window s → T <= Stone.last_update s →
  Stone.contacts (Stone.update s T []) = Stone.contacts s ∧
  Stone.last_update (Stone.update s T []) = T.
Proof.
  intros Hw HT. split; [|done]. cbn. apply filter_all.
  eapply Forall_impl; [exact Hw|]. intros c Hc. cbn in Hc. lia.
Qed.

Lemma update_out_of_order_evicts_nothing_witness :
  let s := Stone.update Example.stone0 100 [Example.contact 100 "aa"] in
  Stone.contacts (Stone.update s 10 []) = [Example.contact 100 "aa"] ∧
  Stone.last_update (Stone.update s 10 []) = 10.
Proof.
  intros s. apply (update_out_of_order_evicts_nothing s 10).
  - apply Forall_singleton. cbn. lia.
  - cbn. lia.
Defined.

(** X5: handing the contacts of one report over in two [update] calls with
    the same timestamp gives the same stone as one call with all of them,
    when the contacts of the first call are stamped inside the window. *)
Theorem update_in_two_parts (s : Stone.t) (T : Z) (new1 new2 : list Contact.t) :
  Stone.stamped_within (T, new1) →
  Stone.update (Stone.update s T new1) T new2 = Stone.update s T (new1 ++ new2).
Proof.
  intros Hnew1. unfold Stone.update.
  cbn [Stone.contacts Stone.mac_address Stone.b_address Stone.comment Stone.last_update].
  f_equal. rewrite foldl_app. f_equal.
  apply filter_all, foldl_put_Forall; [apply recent_Forall | exact Hnew1].
Qed.

Lemma update_in_two_parts_witness :
  Stone.update (Stone.update Example.stone0 100 [Example.contact 100 "aa"]) 100
    [Example.contact 100 "bb"] =
  Stone.update Example.stone0 100 [Example.contact 100 "aa"; Example.contact 100 "bb"].
Proof.
  apply (update_in_two_parts Example.stone0 100 [Example.contact 100 "aa"]
           [Example.contact 100 "bb"]).
  apply Forall_singleton. cbn. lia.
Defined.

(** ** More on the shared store *)

Lemma foldl_put_own (T : Z) (cs : list Contact.t) :
  NoDup (Contact.mac_address <$> cs) → foldl Stone.put (Stone.recent T cs) cs = cs.
Proof.
  intros Hnd. rewrite <-(app_nil_r (Stone.recent T cs)), foldl_put_app.
  rewrite (foldl_put_distinct_new cs []) by done.
  rewrite filter_none; [done|]. apply Forall_forall.
  intros x [_ Hx]%list_elem_of_filter Hun.
  unfold Stone.untouched in Hun. rewrite Forall_forall in Hun. by apply (Hun x Hx).
Qed.

Lemma update_own (stone : Stone.t) :
  Stone.distinct_sources stone →
  Stone.update stone (Stone.last_update stone) (Stone.contacts stone) = stone.
Proof.
  intros Hnd. destruct stone as [mac b cm T cs]. unfold Stone.update. cbn.
  f_equal. by apply foldl_put_own.
Qed.

Lemma foldl_put_again (T : Z) (cs new : list Contact.t) :
  foldl Stone.put (Stone.recent T (foldl Stone.put (Stone.recent T cs) new)) new =
  foldl Stone.put (Stone.recent T cs) new.
Proof.
  set (K := Stone.recent T cs).
  assert (HK : Forall (λ c, Contact.timestamp c >= T - 60) K) by apply recent_Forall.
  clearbody K.
  rewrite <-(app_nil_r K) at 1 2. rewrite !foldl_put_app.
  unfold Stone.recent at 1. rewrite filter_app, foldl_put_app.
  rewrite (filter_all _ (filter (Stone.untouched new) K)).
  2:{ apply Forall_forall. intros x [_ Hx]%list_elem_of_filter.
      rewrite Forall_forall in HK. by apply HK. }
  rewrite list_filter_filter. f_equal; [apply list_filter_iff; tauto|].
  rewrite <-(app_nil_r (filter _ (foldl Stone.put [] new))), foldl_put_app.
  rewrite filter_none; [done|].
  apply Forall_forall. intros x [_ Hx]%list_elem_of_filter Hun.
  apply elem_of_foldl_put in Hx as [Hx|Hx]; [by apply elem_of_nil in Hx|].
  unfold Stone.untouched in Hun. rewrite Forall_forall in Hun.
  by apply (Hun x Hx).
Qed.

Lemma update_again (s : Stone.t) (T : Z) (new : list Contact.t) :
  Stone.update (Stone.update s T new) T new = Stone.update s T new.
Proof.
  unfold Stone.update.
  cbn [Stone.contacts Stone.mac_address Stone.b_address Stone.comment Stone.last_update].
  f_equal. apply foldl_put_again.
Qed.

Lemma world_eq (w w' : World.t) :
  World.stones w = World.stones w' → World.descs w = World.descs w' → w = w'.
Proof. destruct w, w'. cbn. by intros -> ->. Qed.

Lemma update_stone_twice (w : World.t) (stone : Stone.t) :
  Stone.distinct_sources stone →
  World.update_stone (World.update_stone w stone) stone = World.update_stone w stone.
Proof.
  intros Hnd. unfold World.update_stone at 2 3.
  destruct (World.stones w !! Stone.mac_address stone) as [existing|] eqn:Hmac;
    unfold World.update_stone; cbn; rewrite lookup_insert_eq;
    apply world_eq; cbn; try done; rewrite insert_insert_eq.
  - by rewrite update_again.
  - by rewrite update_own.
Qed.

(** X6: storing the same stone a second time changes nothing, whether its
    address was new or not, as long as its contacts have distinct sources. *)
Theorem update_stone_idempotent (w : World.t) (stone : Stone.t) :
  Stone.distinct_sources stone →
  World.update_stone (World.update_stone w stone) stone = World.update_stone w stone.
Proof. apply update_stone_twice. Qed.

Lemma update_stone_idempotent_witness :
  let stone := Stone.update Example.stone0 100 [Example.contact 100 "aa"] in
  World.update_stone (World.update_stone World.init stone) stone =
  World.update_stone World.init stone.
Proof.
  intros stone. apply update_stone_idempotent.
  unfold Stone.distinct_sources. cbn. apply NoDup_singleton.
Defined.

(** X7: stones of different addresses can be stored in either order. *)
Theorem update_stone_commutes (w : World.t) (a b : Stone.t) :
  Stone.mac_address a ≠ Stone.mac_address b →
  World.update_stone (World.update_stone w a) b =
  World.update_stone (World.update_stone w b) a.
Proof.
  intros Hne.
  assert (Ha : ∀ w', World.stones (World.update_stone w' b) !! Stone.mac_address a =
                     World.stones w' !! Stone.mac_address a).
  { intros w'. unfold World.update_stone.
    destruct (World.stones w' !! Stone.mac_address b); cbn; by rewrite lookup_insert_ne. }
  assert (Hb : ∀ w', World.stones (World.update_stone w' a) !! Stone.mac_address b =
                     World.stones w' !! Stone.mac_address b).
  { intros w'. unfold World.update_stone.
    destruct (World.stones w' !! Stone.mac_address a); cbn; by rewrite lookup_insert_ne. }
  unfold World.update_stone at 1 3. rewrite Ha, Hb.
  unfold World.update_stone.
  destruct (World.stones w !! Stone.mac_address a),
           (World.stones w !! Stone.mac_address b);
    cbn; apply world_eq; cbn; try done; by apply insert_insert_ne.
Qed.

Lemma update_stone_commutes_witness :
  let a := Stone.update (Stone.init "s1" Example.bid0 (JStr "hall")) 100
             [Example.contact 100 "aa"] in
  let b := Stone.update (Stone.init "s2" Example.bid0 (JStr "yard")) 105
             [Example.contact 105 "aa"] in
  World.update_stone (World.update_stone World.init a) b =
  World.update_stone (World.update_stone World.init b) a.
Proof. intros a b. apply update_stone_commutes. discriminate. Defined.

(** ** More on the message handler *)

Section HandlerMore.

Context `{Runtime}.

Implicit Types (self : MqttService.t) (topic : string) (payload : list byte).

(** The five ways a call of the handler can end. *)
Lemma on_message_shape self topic payload :
  let o := MqttService.on_message self topic payload in
  (∃ p, MqttService.decode payload = inr p ∧
        o = {| MqttService.final := self;
               MqttService.events := [MqttService.Print_could_not_decode (length p) topic];
               MqttService.raised := None |}) ∨
  (∃ e, o = {| MqttService.final := self; MqttService.events := [];
               MqttService.raised := Some e |}) ∨
  o = {| MqttService.final := self; MqttService.events := [];
         MqttService.raised := None |} ∨
  (∃ data stone t,
     MqttService.decode payload = inl data ∧
     String.prefix (MqttService.channel_in_sensors_prefix self) topic = true ∧
     MqttService.parse_report self topic data = Py.Ret (stone, t) ∧
     o = MqttService.publish_aggregated
           (MqttService.set_world self
              (World.update_stone (MqttService.world self) stone)) t) ∨
  (∃ data mac name color,
     MqttService.decode payload = inl data ∧
     String.prefix (MqttService.channel_in_sensors_prefix self) topic = false ∧
     topic = MqttService.channel_in_nameupdate self ∧
     MqttService.parse_desc data = Py.Ret (mac, name, color) ∧
     let self' := MqttService.set_world self
                    (World.update_desc (MqttService.world self) mac name color) in
     o = {| MqttService.final := self';
            MqttService.events :=
              [MqttService.publish_persistent (MqttService.channel_out_names self)
                 (Aggregator.aggregate_descs (World.descs (MqttService.world self')))];
            MqttService.raised := None |}).
Proof.
  cbn zeta. unfold MqttService.on_message.
  destruct (MqttService.decode payload) as [data|p]; [|left; by exists p].
  right. destruct (String.prefix _ topic) eqn:Hprefix.
  - destruct (MqttService.parse_report self topic data) as [[stone t]|e] eqn:Hr.
    + do 2 right. left. by exists data, stone, t.
    + left. by exists e.
  - case_decide as Htopic; [|by right; left].
    destruct (MqttService.parse_desc data) as [[[mac name] color]|e] eqn:Hd.
    + do 3 right. by exists data, mac, name, color.
    + left. by exists e.
Qed.

Lemma same_settings_refl self : MqttService.same_settings self self.
Proof. by repeat split. Qed.

Lemma same_settings_trans self1 self2 self3 :
  MqttService.same_settings self1 self2 → MqttService.same_settings self2 self3 →
  MqttService.same_settings self1 self3.
Proof.
  unfold MqttService.same_settings.
  intros (?&?&?&?&?&?) (?&?&?&?&?&?). repeat split; congruence.
Qed.

Lemma expected_event_settings self self' e :
  MqttService.same_settings self self' →
  MqttService.expected_event self' e → MqttService.expected_event self e.
Proof.
  intros (_&_&Hs&Hg&Hn&_). destruct e; [done|]. cbn. by rewrite Hs, Hg, Hn.
Qed.

Lemma on_message_effects_one self topic payload :
  let o := MqttService.on_message self topic payload in
  MqttService.same_settings self (MqttService.final o) ∧
  Forall (MqttService.expected_event self) (MqttService.events o) ∧
  (length (MqttService.events o) <= 2)%nat.
Proof.
  cbn zeta.
  destruct (on_message_shape self topic payload)
    as [(p & _ & ->)|[(e & ->)|[->|[(data & stone & t & _ & _ & _ & ->)|
        (data & mac & name & color & _ & _ & _ & _ & ->)]]]]; cbn.
  - split; [apply same_settings_refl|]. split; [|lia]. by apply Forall_singleton.
  - split; [apply same_settings_refl|]. split; [apply Forall_nil_2|lia].
  - split; [apply same_settings_refl|]. split; [apply Forall_nil_2|lia].
  - unfold MqttService.publish_aggregated. case_decide; cbn.
    + split; [by repeat split|]. split; [|lia].
      repeat apply Forall_cons_2; [| |apply Forall_nil_2]; cbn; (split; [done|]).
      * apply list_elem_of_here.
      * apply list_elem_of_further, list_elem_of_here.
    + split; [by repeat split|]. split; [apply Forall_nil_2|lia].
  - split; [by repeat split|]. split; [|lia].
    apply Forall_singleton. cbn. split; [done|].
    do 2 apply list_elem_of_further. apply list_elem_of_here.
Qed.

(** Induction over a run of the handler: what every call preserves and
    what holds at the start holds at the end. *)
Lemma run_invariant (P : MqttService.t → Prop) msgs self :
  (∀ self topic payload,
     P self → P (MqttService.final (MqttService.on_message self topic payload))) →
  P self → P (MqttService.final (MqttService.run self msgs)).
Proof.
  intros Hstep. revert self. induction msgs as [|[topic payload] msgs IH]; intros self HP.
  - done.
  - cbn. destruct (MqttService.raised _) eqn:Hraised; cbn; [by apply Hstep|].
    by apply IH, Hstep.
Qed.

Lemma update_stone_keyed (w : World.t) (stone : Stone.t) :
  World.keyed w → World.keyed (World.update_stone w stone).
Proof.
  intros Hw. unfold World.keyed, World.update_stone in *.
  destruct (World.stones w !! Stone.mac_address stone) as [existing|] eqn:Hmac; cbn;
    (apply map_Forall_insert_2; [|done]).
  - cbn. by apply (Hw _ _ Hmac).
  - done.
Qed.

Lemma on_message_keyed self topic payload :
  World.keyed (MqttService.world self) →
  World.keyed (MqttService.world (MqttService.final
                 (MqttService.on_message self topic payload))).
Proof.
  intros Hw.
  destruct (on_message_shape self topic payload)
    as [(p & _ & ->)|[(e & ->)|[->|[(data & stone & t & _ & _ & _ & ->)|
        (data & mac & name & color & _ & _ & _ & _ & ->)]]]]; cbn; try done.
  unfold MqttService.publish_aggregated. case_decide; cbn; by apply update_stone_keyed.
Qed.

Lemma on_message_grows self topic payload :
  let w' := MqttService.world (MqttService.final
              (MqttService.on_message self topic payload)) in
  dom (World.stones (MqttService.world self)) ⊆ dom (World.stones w') ∧
  dom (World.descs (MqttService.world self)) ⊆ dom (World.descs w').
Proof.
  cbn zeta.
  destruct (on_message_shape self topic payload)
    as [(p & _ & ->)|[(e & ->)|[->|[(data & stone & t & _ & _ & _ & ->)|
        (data & mac & name & color & _ & _ & _ & _ & ->)]]]]; cbn; try done.
  - assert (dom (World.stones (MqttService.world self)) ⊆
            dom (World.stones (World.update_stone (MqttService.world self) stone)) ∧
            World.descs (World.update_stone (MqttService.world self) stone) =
            World.descs (MqttService.world self)) as [Hs Hd].
    { unfold World.update_stone.
      destruct (World.stones (MqttService.world self) !! Stone.mac_address stone);
        cbn; (split; [|done]); rewrite dom_insert_L; set_solver. }
    unfold MqttService.publish_aggregated. case_decide; cbn; by rewrite Hd.
  - split; [done|]. rewrite dom_insert_L. set_solver.
Qed.

Lemma on_message_last_stone_update self topic payload :
  let last := MqttService.last_stone_update self in
  let last' := MqttService.last_stone_update
                 (MqttService.final (MqttService.on_message self topic payload)) in
  last' = last ∨ last + MqttService.update_interval self <= last'.
Proof.
  cbn zeta.
  destruct (on_message_shape self topic payload)
    as [(p & _ & ->)|[(e & ->)|[->|[(data & stone & t & _ & _ & _ & ->)|
        (data & mac & name & color & _ & _ & _ & _ & ->)]]]]; cbn; try by left.
  unfold MqttService.publish_aggregated. case_decide; cbn in *; [right; lia | by left].
Qed.

End HandlerMore.

Section HandlerRuns.

Context `{Runtime}.

Implicit Types (self : MqttService.t) (topic : string) (payload : list byte).

Lemma run_effects_all msgs self :
  let o := MqttService.run self msgs in
  MqttService.same_settings self (MqttService.final o) ∧
  Forall (MqttService.expected_event self) (MqttService.events o) ∧
  (length (MqttService.events o) <= 2 * length msgs)%nat.
Proof.
  cbn zeta. revert self. induction msgs as [|[topic payload] msgs IH]; intros self.
  - cbn. split; [apply same_settings_refl|]. split; [apply Forall_nil_2|lia].
  - destruct (on_message_effects_one self topic payload) as (Hs & He & Hl).
    cbn [MqttService.run].
    destruct (MqttService.raised (MqttService.on_message self topic payload)).
    + split; [done|]. split; [done|]. cbn [length]. lia.
    + destruct (IH (MqttService.final (MqttService.on_message self topic payload)))
        as (Hs' & He' & Hl').
      cbn. split; [by eapply same_settings_trans|]. split.
      * apply Forall_app. split; [done|].
        eapply Forall_impl; [exact He'|]. intros e. by apply expected_event_settings.
      * rewrite length_app. lia.
Qed.

Lemma run_settings msgs self :
  MqttService.same_settings self (MqttService.final (MqttService.run self msgs)).
Proof. apply (run_effects_all msgs self). Qed.

Lemma parse_report_prefix self self' topic data :
  MqttService.channel_in_sensors_prefix self' = MqttService.channel_in_sensors_prefix self →
  MqttService.parse_report self' topic data = MqttService.parse_report self topic data.
Proof. intros Hp. unfold MqttService.parse_report. by rewrite Hp. Qed.

Lemma parse_report_address self topic data stone t :
  MqttService.parse_report self topic data = Py.Ret (stone, t) →
  Stone.mac_address stone =
    Py.slice_from (String.length (MqttService.channel_in_sensors_prefix self)) topic.
Proof.
  unfold MqttService.parse_report.
  repeat (match goal with
          | |- context [Py.getitem ?o ?k] => destruct (Py.getitem o k); [cbn|done]
          end;
          try match goal with
          | |- context [MqttService.parse_time ?v] =>
              destruct (MqttService.parse_time v) as [timestamp|]; [cbn|done]
          end).
  match goal with |- context [Py.iter ?v] => destruct (Py.iter v) as [cts|]; [cbn|done] end.
  destruct (mapM _ cts) as [contacts|]; [cbn|done].
  by intros [= <- <-].
Qed.

Lemma publish_aggregated_world self t :
  MqttService.world (MqttService.final (MqttService.publish_aggregated self t)) =
  MqttService.world self.
Proof. unfold MqttService.publish_aggregated. by case_decide. Qed.

Lemma publish_aggregated_settings self t :
  MqttService.same_settings self
    (MqttService.final (MqttService.publish_aggregated self t)).
Proof. unfold MqttService.publish_aggregated. by case_decide. Qed.

Lemma slice_from_app (p m : string) :
  Py.slice_from (String.length p) (p +:+ m) = m.
Proof. induction p as [|a p IH]; [by destruct m|done]. Qed.

Lemma prefix_app (p m : string) : String.prefix p (p +:+ m) = true.
Proof.
  induction p as [|a p IH]; [by destruct m|].
  change (String a p +:+ m) with (String a (p +:+ m)).
  cbn [String.prefix]. by destruct (Ascii.ascii_dec a a).
Qed.

End HandlerRuns.

(** X12: a name update that decodes to a dict with [mac], [name] and
    [color] is always followed by one retained publication on the names
    channel, whatever the throttle state; the published document carries the
    new description, and stones and throttle state are as before. *)
Theorem name_update_published `{Runtime} (self : MqttService.t) (topic : string)
    (payload : list byte) (data : json) (mac : string) (name color : json) :
  MqttService.decode payload = inl data →
  String.prefix (MqttService.channel_in_sensors_prefix self) topic = false →
  topic = MqttService.channel_in_nameupdate self →
  Py.getitem data "mac" = Py.Ret (JStr mac) →
  Py.getitem data "name" = Py.Ret name →
  Py.getitem data "color" = Py.Ret color →
  let o := MqttService.on_message self topic payload in
  ∃ doc,
    MqttService.events o = [MqttService.Publish (MqttService.channel_out_names self) doc true] ∧
    doc !! mac = Some (JDict [("name", name); ("color", color)]) ∧
    MqttService.raised o = None ∧
    MqttService.world (MqttService.final o) =
      World.update_desc (MqttService.world self) mac name color ∧
    World.stones (MqttService.world (MqttService.final o)) =
      World.stones (MqttService.world self) ∧
    MqttService.last_stone_update (MqttService.final o) = MqttService.last_stone_update self.
Proof.
  intros Hdata Hprefix Htopic Hmac Hname Hcolor. cbn zeta.
  unfold MqttService.on_message. rewrite Hdata, Hprefix, decide_True by done.
  unfold MqttService.parse_desc. rewrite Hmac, Hname, Hcolor. cbn.
  eexists. split; [done|]. split; [|done].
  unfold Aggregator.aggregate_descs. by rewrite lookup_fmap, lookup_insert_eq.
Qed.

Lemma name_update_published_witness :
  let H := Example.host2 in
  ∃ doc,
    MqttService.events
      (MqttService.on_message (MqttService.init World.init) "NameUpdate"
         (Example.bytes "name")) =
      [MqttService.Publish "Aggregated/Names" doc true] ∧
    doc !! "aa" = Some (JDict [("name", JStr "door"); ("color", JStr "red")]).
Proof.
  intros H.
  destruct (name_update_published (MqttService.init World.init) "NameUpdate"
              (Example.bytes "name")
              (JDict [("mac", JStr "aa"); ("name", JStr "door"); ("color", JStr "red")])
              "aa" (JStr "door") (JStr "red"))
    as (doc & Hev & Hdoc & _); [vm_compute; reflexivity ..|].
  exists doc. split; [exact Hev | exact Hdoc].
Defined.

Section Reports.

Context `{Runtime}.

Implicit Types (self : MqttService.t) (topic : string) (payload : list byte).

Lemma on_message_report_full self topic payload t :
  MqttService.report_time self topic payload = Some t →
  ∃ data stone,
    MqttService.decode payload = inl data ∧
    String.prefix (MqttService.channel_in_sensors_prefix self) topic = true ∧
    MqttService.parse_report self topic data = Py.Ret (stone, t) ∧
    MqttService.on_message self topic payload =
      MqttService.publish_aggregated
        (MqttService.set_world self (World.update_stone (MqttService.world self) stone)) t.
Proof.
  unfold MqttService.report_time, MqttService.on_message.
  destruct (MqttService.decode payload) as [data|]; [|done].
  destruct (String.prefix _ topic); [|done].
  destruct (MqttService.parse_report self topic data) as [[stone t']|] eqn:Hr; [|done].
  intros [= ->]. exists data, stone. by split_and!.
Qed.

Lemma update_stone_lookup (w : World.t) (stone : Stone.t) :
  ∃ s, World.stones (World.update_stone w stone) !! Stone.mac_address stone = Some s ∧
       Stone.last_update s = Stone.last_update stone.
Proof.
  unfold World.update_stone.
  destruct (World.stones w !! Stone.mac_address stone); cbn;
    rewrite lookup_insert_eq; by eexists.
Qed.

Lemma update_stone_frame (w : World.t) (stone : Stone.t) :
  (∀ other, other ≠ Stone.mac_address stone →
            World.stones (World.update_stone w stone) !! other = World.stones w !! other) ∧
  World.descs (World.update_stone w stone) = World.descs w.
Proof.
  unfold World.update_stone.
  destruct (World.stones w !! Stone.mac_address stone); cbn;
    (split; [|done]); intros other Hne; by rewrite lookup_insert_ne.
Qed.

Lemma decode_inflated payload inflated :
  MqttService.has_zlib_header payload = Some true →
  zlib_decompress payload = Some inflated →
  MqttService.has_zlib_header inflated = Some false →
  MqttService.decode payload = MqttService.decode inflated.
Proof.
  intros Hh Hz Hi. unfold MqttService.decode. by rewrite Hh, Hz, Hi.
Qed.

End Reports.

(** X13: a message that decodes but arrives on a topic that neither starts
    with the sensor prefix nor is the name-update channel is ignored; and a
    message on a topic that starts with the sensor prefix is never taken for
    a name update, even on the name-update channel itself: the descriptions
    stay as they are. *)
Theorem topic_dispatch `{Runtime} (self : MqttService.t) (topic : string)
    (payload : list byte) (data : json) :
  MqttService.decode payload = inl data →
  let o := MqttService.on_message self topic payload in
  (String.prefix (MqttService.channel_in_sensors_prefix self) topic = false →
   topic ≠ MqttService.channel_in_nameupdate self →
   o = {| MqttService.final := self; MqttService.events := [];
          MqttService.raised := None |}) ∧
  (String.prefix (MqttService.channel_in_sensors_prefix self) topic = true →
   World.descs (MqttService.world (MqttService.final o)) =
     World.descs (MqttService.world self)).
Proof.
  intros Hdata. cbn zeta. unfold MqttService.on_message. rewrite Hdata. split.
  - intros -> Htopic. by rewrite decide_False.
  - intros ->.
    destruct (MqttService.parse_report self topic data) as [[stone t]|]; [|done].
    rewrite publish_aggregated_world. cbn. apply update_stone_frame.
Qed.

Lemma topic_dispatch_witness :
  let H := Example.host2 in
  let svc := MqttService.init World.init in
  MqttService.on_message svc "Aggregated/Names" (Example.bytes "name") =
    {| MqttService.final := svc; MqttService.events := [];
       MqttService.raised := None |}.
Proof.
  intros H svc.
  destruct (topic_dispatch svc "Aggregated/Names" (Example.bytes "name")
              (JDict [("mac", JStr "aa"); ("name", JStr "door"); ("color", JStr "red")]))
    as [Hignored _]; [vm_compute; reflexivity|].
  apply Hignored; [reflexivity | discriminate].
Defined.

(** X14: a sensor report that parses, arriving on the sensor prefix
    followed by [mac], leaves under the address [mac] a stone whose last
    update is the report's timestamp; the stones of all other addresses and
    the descriptions are as before. *)
Theorem report_stored_under_topic_suffix `{Runtime} (self : MqttService.t)
    (mac : string) (payload : list byte) (t : Z) :
  let topic := MqttService.channel_in_sensors_prefix self +:+ mac in
  MqttService.report_time self topic payload = Some t →
  let w' := MqttService.world (MqttService.final
              (MqttService.on_message self topic payload)) in
  (∃ s, World.stones w' !! mac = Some s ∧ Stone.last_update s = t) ∧
  (∀ other, other ≠ mac →
     World.stones w' !! other = World.stones (MqttService.world self) !! other) ∧
  World.descs w' = World.descs (MqttService.world self).
Proof.
  intros topic Ht. cbn zeta.
  apply on_message_report_full in Ht as (data & stone & _ & _ & Hr & ->).
  rewrite publish_aggregated_world. cbn.
  pose proof (parse_report_address _ _ _ _ _ Hr) as Hmac.
  subst topic. rewrite slice_from_app in Hmac.
  apply parse_report_stone in Hr as (Hlast & _ & _).
  destruct (update_stone_lookup (MqttService.world self) stone) as (s & Hs & Hl).
  destruct (update_stone_frame (MqttService.world self) stone) as [Hother Hdescs].
  rewrite Hmac in Hs, Hother. split; [|by split].
  exists s. split; [done|congruence].
Qed.

Lemma report_stored_under_topic_suffix_witness :
  let H := Example.host in
  let w' := MqttService.world (MqttService.final
              (MqttService.on_message (MqttService.init World.init)
                 "JellingStone/s1" (Example.bytes "r100"))) in
  ∃ s, World.stones w' !! "s1" = Some s ∧ Stone.last_update s = 100.
Proof.
  intros H w'.
  destruct (report_stored_under_topic_suffix (MqttService.init World.init) "s1"
              (Example.bytes "r100") 100) as [Hs _]; [vm_compute; reflexivity|].
  exact Hs.
Defined.

(** X15: a sensor report delivered a second time, right after the first,
    leaves the world as the first delivery left it, and with a positive
    update interval the second delivery publishes nothing. *)
Theorem report_redelivered `{Runtime} (self : MqttService.t) (topic : string)
    (payload : list byte) (t : Z) :
  MqttService.report_time self topic payload = Some t →
  let o1 := MqttService.on_message self topic payload in
  let o2 := MqttService.on_message (MqttService.final o1) topic payload in
  MqttService.world (MqttService.final o2) = MqttService.world (MqttService.final o1) ∧
  (0 < MqttService.update_interval self → MqttService.events o2 = []).
Proof.
  intros Ht. cbn zeta.
  pose proof (on_message_effects_one self topic payload) as [Hset _]. cbn zeta in Hset.
  assert (Ht2 : MqttService.report_time
                  (MqttService.final (MqttService.on_message self topic payload))
                  topic payload = Some t).
  { rewrite <-Ht. apply report_time_prefix, Hset. }
  apply on_message_report_full in Ht as (data & stone & Hdata & _ & Hr & Ho1).
  apply on_message_report_full in Ht2 as (data' & stone' & Hdata' & _ & Hr' & Ho2).
  assert (data' = data) as -> by congruence.
  rewrite (parse_report_prefix self) in Hr' by apply Hset.
  assert (stone' = stone) as -> by congruence.
  rewrite Ho2. clear Ho2. rewrite Ho1. split.
  - repeat (rewrite publish_aggregated_world; cbn).
    apply update_stone_twice. by apply parse_report_stone in Hr as (_ & ? & _).
  - intros Hi. unfold MqttService.publish_aggregated.
    repeat (case_decide; cbn in * ); first [done | lia].
Qed.

Lemma report_redelivered_witness :
  let H := Example.host in
  let o1 := MqttService.on_message (MqttService.init World.init)
              "JellingStone/s1" (Example.bytes "anon") in
  let o2 := MqttService.on_message (MqttService.final o1)
              "JellingStone/s1" (Example.bytes "anon") in
  MqttService.world (MqttService.final o2) = MqttService.world (MqttService.final o1) ∧
  MqttService.events o2 = [].
Proof.
  intros H o1 o2.
  destruct (report_redelivered (MqttService.init World.init) "JellingStone/s1"
              (Example.bytes "anon") 100) as [Hw Hev]; [vm_compute; reflexivity|].
  split; [exact Hw|]. apply Hev. vm_compute. reflexivity.
Defined.

(** ** The graph view *)

Lemma graph_contact_shows (now : Z) (c : Contact.t) :
  Document.shows_graph_contact now c (Aggregator.graph_contact now c).
Proof. by repeat split. Qed.

(** X16: [aggregate_graph] has an entry for an address exactly when the
    stones map has a stone there; the entry has the keys uuid, major, minor,
    comment, age and contacts and no other, the age being [current_time]
    less the stone's last update; the contacts are listed in order, each
    with source address, beacon identity, its own age ([current_time] less
    its timestamp), average and transmit RSSI. *)
Theorem aggregate_graph_view (stones : gmap string Stone.t) (current_time : Z)
    (mac : string) :
  match stones !! mac with
  | None => Aggregator.aggregate_graph stones current_time !! mac = None
  | Some s =>
      ∃ entry l,
        Aggregator.aggregate_graph stones current_time !! mac = Some entry ∧
        Py.keys entry = ["uuid"; "major"; "minor"; "comment"; "age"; "contacts"] ∧
        Document.shows_beacon entry (Stone.b_address s) ∧
        Document.has entry "comment" (Stone.comment s) ∧
        Document.has entry "age" (JInt (current_time - Stone.last_update s)) ∧
        Document.has entry "contacts" (JList l) ∧
        Forall2 (Document.shows_graph_contact current_time) (Stone.contacts s) l
  end.
Proof.
  unfold Aggregator.aggregate_graph. rewrite lookup_fmap.
  destruct (stones !! mac) as [s|]; [|done].
  cbn. eexists _, _. split; [done|]. split; [done|].
  split; [by repeat split|]. split; [done|]. split; [done|]. split; [done|].
  apply Forall2_fmap_r, Forall_Forall2_diag, Forall_forall.
  intros c _. apply graph_contact_shows.
Qed.

(** X17: in the graph view taken at the last update of a stone that is
    inside its window, the stone has age 0 and every contact listed for it
    has an age of at most 60. *)
Theorem graph_ages_within_window (stones : gmap string Stone.t) (mac : string)
    (s : Stone.t) :
  stones !! mac = Some s → Stone.within_window s →
  ∃ entry l,
    Aggregator.aggregate_graph stones (Stone.last_update s) !! mac = Some entry ∧
    Document.has entry "age" (JInt 0) ∧
    Document.has entry "contacts" (JList l) ∧
    length l = length (Stone.contacts s) ∧
    Forall (λ obj, ∃ age, Document.has obj "age" age ∧ Document.at_most 60 age) l.
Proof.
  intros Hs Hw. unfold Aggregator.aggregate_graph. rewrite lookup_fmap, Hs. cbn.
  eexists _, _. split; [done|]. split.
  { unfold Document.has. cbn. by rewrite Z.sub_diag. }
  split; [done|]. split; [by rewrite length_fmap|].
  apply Forall_fmap. eapply Forall_impl; [exact Hw|].
  intros c Hc. cbn in *. eexists. split; [done|]. eexists. split; [done|]. lia.
Qed.

Lemma graph_ages_within_window_witness :
  let s := Stone.update (Stone.update Example.stone0 100 [Example.contact 100 "aa"]) 130
             [Example.contact 130 "bb"] in
  ∃ entry l,
    Aggregator.aggregate_graph {[ "s1" := s ]} 130 !! "s1" = Some entry ∧
    Document.has entry "age" (JInt 0) ∧
    Document.has entry "contacts" (JList l) ∧
    length l = 2%nat ∧
    Forall (λ obj, ∃ age, Document.has obj "age" age ∧ Document.at_most 60 age) l.
Proof.
  intros s.
  apply (graph_ages_within_window {[ "s1" := s ]} "s1" s).
  - apply lookup_singleton_eq.
  - repeat constructor; cbn; lia.
Defined.

(** ** Documents of the wrong shape, time strings, compressed payloads *)

(** X18: a payload that decodes to something other than a dict, on a
    sensor topic or on the name-update channel, makes the handler leave
    through [TypeError] with nothing stored, printed or published. *)
Theorem non_dict_document_raises `{Runtime} (self : MqttService.t) (topic : string)
    (payload : list byte) (data : json) :
  MqttService.decode payload = inl data →
  (∀ d, data ≠ JDict d) →
  String.prefix (MqttService.channel_in_sensors_prefix self) topic = true ∨
  topic = MqttService.channel_in_nameupdate self →
  MqttService.on_message self topic payload =
    {| MqttService.final := self; MqttService.events := [];
       MqttService.raised := Some Py.TypeError |}.
Proof.
  intros Hdata Hnd Htopic. unfold MqttService.on_message. rewrite Hdata.
  assert (Hr : MqttService.parse_report self topic data = Py.Raise Py.TypeError).
  { unfold MqttService.parse_report. destruct data; try done. by destruct (Hnd d). }
  assert (Hd : MqttService.parse_desc data = Py.Raise Py.TypeError).
  { unfold MqttService.parse_desc. destruct data; try done. by destruct (Hnd d). }
  destruct (String.prefix _ topic); [by rewrite Hr|].
  destruct Htopic as [?| ->]; [done|]. by rewrite decide_True, Hd.
Qed.

Lemma non_dict_document_raises_witness :
  let H := Example.host2 in
  let svc := MqttService.init World.init in
  MqttService.on_message svc "JellingStone/s1" (Example.bytes "list") =
    {| MqttService.final := svc; MqttService.events := [];
       MqttService.raised := Some Py.TypeError |}.
Proof.
  intros H svc.
  apply (non_dict_document_raises svc "JellingStone/s1" (Example.bytes "list") (JList [])).
  - vm_compute. reflexivity.
  - discriminate.
  - left. reflexivity.
Defined.

(** X20: compression is transparent: a payload with the zlib header that
    inflates to bytes without that header is handled exactly as those bytes
    sent as they are, down to the line printed when they are not JSON. *)
Theorem compressed_payload_as_inflated `{Runtime} (self : MqttService.t) (topic : string)
    (payload inflated : list byte) :
  MqttService.has_zlib_header payload = Some true →
  zlib_decompress payload = Some inflated →
  MqttService.has_zlib_header inflated = Some false →
  MqttService.on_message self topic payload = MqttService.on_message self topic inflated.
Proof.
  intros Hh Hz Hi. unfold MqttService.on_message.
  by rewrite (decode_inflated payload inflated).
Qed.

Lemma compressed_payload_as_inflated_witness :
  let H := Example.host2 in
  let svc := MqttService.init World.init in
  MqttService.on_message svc "JellingStone/s1" Example.deflated =
  MqttService.on_message svc "JellingStone/s1" (Example.bytes "r100").
Proof.
  intros H svc.
  apply (compressed_payload_as_inflated svc "JellingStone/s1" Example.deflated
           (Example.bytes "r100")); vm_compute; reflexivity.
Defined.

Section Entries.

Context `{Runtime}.

Lemma parse_report_entries (self : MqttService.t) (topic : string) (data : json)
    (stone : Stone.t) (t : Z) :
  MqttService.parse_report self topic data = Py.Ret (stone, t) →
  ∃ entries cts contacts,
    Py.getitem data "data" = Py.Ret entries ∧
    Py.iter entries = Py.Ret cts ∧
    mapM (MqttService.parse_contact t) cts = Py.Ret contacts ∧
    Stone.contacts stone = foldl Stone.put [] contacts.
Proof.
  unfold MqttService.parse_report.
  destruct (Py.getitem data "uuid"); [cbn|done].
  destruct (Py.getitem data "major"); [cbn|done].
  destruct (Py.getitem data "minor"); [cbn|done].
  destruct (Py.getitem data "comment"); [cbn|done].
  destruct (Py.getitem data "timestamp") as [time_string|]; [cbn|done].
  destruct (MqttService.parse_time time_string) as [timestamp|]; [cbn|done].
  destruct (Py.getitem data "data") as [entries|]; [cbn|done].
  destruct (Py.iter entries) as [cts|] eqn:Hiter; [cbn|done].
  destruct (mapM _ cts) as [contacts|] eqn:Hcts; [cbn|done].
  intros [= <- <-]. by exists entries, cts, contacts.
Qed.

Lemma mapM_all_dicts (t : Z) (cts : list json) (contacts : list Contact.t) :
  mapM (MqttService.parse_contact t) cts = Py.Ret contacts →
  Forall (λ ct, ∃ d, ct = JDict d) cts.
Proof.
  intros Hcts. apply Forall_forall. intros ct Hct.
  destruct ct as [| | | s | l | d]; [| | | | |by exists d];
    (destruct (mapM_raises (MqttService.parse_contact t) cts _ Hct) as [e He];
     [eexists; by apply parse_contact_not_dict | congruence]).
Qed.

End Entries.

(** X21: what the handler accepts as the [data] of a sensor report: a list
    whose entries are all dicts, or, since the loop body then never runs, an
    empty dict or an empty string, which leave the report without contacts.
    Anything else raises before the world is touched. *)
Theorem accepted_report_entries `{Runtime} (self : MqttService.t) (topic : string)
    (data entries : json) (stone : Stone.t) (t : Z) :
  MqttService.parse_report self topic data = Py.Ret (stone, t) →
  Py.getitem data "data" = Py.Ret entries →
  match entries with
  | JList l => Forall (λ ct, ∃ d, ct = JDict d) l
  | JDict d => d = [] ∧ Stone.contacts stone = []
  | JStr s => s = "" ∧ Stone.contacts stone = []
  | _ => False
  end.
Proof.
  intros (entries' & cts & contacts & Hdata & Hiter & Hcts & Hstone)%parse_report_entries
         Hentries.
  assert (entries' = entries) as -> by congruence.
  pose proof (mapM_all_dicts t cts contacts Hcts) as Hdicts.
  destruct entries as [| | | s | l | d]; try done.
  - injection Hiter as <-. destruct s as [|a s].
    + cbn in Hcts. injection Hcts as <-. by rewrite Hstone.
    + cbn in Hdicts. apply Forall_cons in Hdicts as [[d [=]] _].
  - by injection Hiter as <-.
  - injection Hiter as <-. destruct d as [|[k v] d].
    + cbn in Hcts. injection Hcts as <-. by rewrite Hstone.
    + cbn in Hdicts. apply Forall_cons in Hdicts as [[d' [=]] _].
Qed.

Lemma accepted_report_entries_witness :
  let H := Example.host in
  Forall (λ ct, ∃ d, ct = JDict d) [JDict (("mac", JStr "aa") :: Example.rssi)].
Proof.
  intros H.
  apply (accepted_report_entries (MqttService.init World.init) "JellingStone/s1"
           (Example.report "1970-01-01T01:01:40Z" [JDict (("mac", JStr "aa") :: Example.rssi)])
           (JList [JDict (("mac", JStr "aa") :: Example.rssi)])
           (Stone.update (Stone.init "s1" (BeaconId.mk (JStr "u") (JInt 1) (JInt 0))
                            (JStr "hall")) 100 [Example.contact 100 "aa"])
           100); vm_compute; reflexivity.
Defined.

(** ** Runs over messages with string addresses

    On a message whose addresses are strings the typed model and the
    handler agree, and the run never stops at [NonStringAddress]. *)

Section StringAddresses.

Context `{Runtime}.

Implicit Types (self : MqttService.t) (topic : string) (payload : list byte).

Lemma getitem_real (obj : json) (key : string) (e : Py.exn) :
  Py.getitem obj key = Py.Raise e → e ≠ Py.NonStringAddress.
Proof.
  destruct obj as [| | | | |d]; cbn; try by intros [= <-].
  destruct (Py.dict_get key d); [done|]. by intros [= <-].
Qed.

Lemma parse_time_real (v : json) (e : Py.exn) :
  MqttService.parse_time v = Py.Raise e → e ≠ Py.NonStringAddress.
Proof.
  destruct v as [| | |s| |]; cbn; try by intros [= <-].
  destruct (strptime s); [done|]. by intros [= <-].
Qed.

Lemma iter_real (v : json) (e : Py.exn) :
  Py.iter v = Py.Raise e → e ≠ Py.NonStringAddress.
Proof. destruct v; cbn; try done; by intros [= <-]. Qed.

Lemma parse_contact_real (t : Z) (ct : json) :
  (∀ v, Py.getitem ct "mac" = Py.Ret v → ∃ s, v = JStr s) →
  MqttService.parse_contact t ct ≠ Py.Raise Py.NonStringAddress.
Proof.
  intros Hmac.
  destruct ct as [| | | | |d];
    try (rewrite parse_contact_not_dict by done; discriminate).
  unfold MqttService.parse_contact. rewrite contact_bid_dict. cbn in *.
  destruct (Py.dict_get "mac" d) as [mac|]; [cbn|done].
  destruct (Hmac mac eq_refl) as [s ->].
  destruct (Py.dict_get "min" d); [cbn|done].
  destruct (Py.dict_get "max" d); [cbn|done].
  destruct (Py.dict_get "avg" d); [cbn|done].
  by destruct (Py.dict_get "remoteRssi" d).
Qed.

Lemma mapM_real {A B} (f : A → Py.result B) (l : list A) :
  (∀ x, x ∈ l → f x ≠ Py.Raise Py.NonStringAddress) →
  mapM f l ≠ Py.Raise Py.NonStringAddress.
Proof.
  induction l as [|x l IH]; intros Hl; [done|]. cbn.
  destruct (f x) as [y|e] eqn:Hx; cbn.
  - destruct (mapM f l) as [k|e] eqn:Hk; [done|]. cbn. intros [= ->].
    apply IH; [|done]. intros z Hz. apply Hl. by right.
  - intros [= ->]. apply (Hl x); [by left|done].
Qed.

Lemma parse_report_real self topic data :
  MqttService.macs_are_strings data →
  MqttService.parse_report self topic data ≠ Py.Raise Py.NonStringAddress.
Proof.
  intros [_ Hentries]. unfold MqttService.parse_report.
  destruct (Py.getitem data "uuid") eqn:H1;
    [cbn|intros [= ->]; by apply getitem_real in H1].
  destruct (Py.getitem data "major") eqn:H2;
    [cbn|intros [= ->]; by apply getitem_real in H2].
  destruct (Py.getitem data "minor") eqn:H3;
    [cbn|intros [= ->]; by apply getitem_real in H3].
  destruct (Py.getitem data "comment") eqn:H4;
    [cbn|intros [= ->]; by apply getitem_real in H4].
  destruct (Py.getitem data "timestamp") as [time_string|] eqn:H5;
    [cbn|intros [= ->]; by apply getitem_real in H5].
  destruct (MqttService.parse_time time_string) as [t|] eqn:H6;
    [cbn|intros [= ->]; by apply parse_time_real in H6].
  destruct (Py.getitem data "data") as [entries|] eqn:H7;
    [cbn|intros [= ->]; by apply getitem_real in H7].
  destruct (Py.iter entries) as [cts|] eqn:H8;
    [cbn|intros [= ->]; by apply iter_real in H8].
  destruct (mapM (MqttService.parse_contact t) cts) as [contacts|e] eqn:H9; [done|].
  cbn. intros [= ->]. revert H9. apply mapM_real.
  intros ct Hct. apply parse_contact_real. intros v Hv.
  by apply (Hentries entries cts ct v).
Qed.

Lemma parse_desc_real data :
  MqttService.macs_are_strings data →
  MqttService.parse_desc data ≠ Py.Raise Py.NonStringAddress.
Proof.
  intros [Hmac _]. unfold MqttService.parse_desc.
  destruct (Py.getitem data "mac") as [mac|] eqn:H1;
    [cbn|intros [= ->]; by apply getitem_real in H1].
  destruct (Hmac mac eq_refl) as [s ->].
  destruct (Py.getitem data "name") eqn:H2;
    [cbn|intros [= ->]; by apply getitem_real in H2].
  destruct (Py.getitem data "color") eqn:H3;
    [done|cbn; intros [= ->]; by apply getitem_real in H3].
Qed.

Lemma on_message_real self topic payload :
  MqttService.string_addressed (topic, payload) →
  MqttService.raised (MqttService.on_message self topic payload) ≠
    Some Py.NonStringAddress.
Proof.
  intros Hmsg. unfold MqttService.on_message.
  destruct (MqttService.decode payload) as [data|] eqn:Hdata; [|done].
  specialize (Hmsg data Hdata).
  destruct (String.prefix _ topic).
  - destruct (MqttService.parse_report self topic data) as [[stone t]|e] eqn:Hr.
    + by rewrite publish_aggregated_returns.
    + cbn. intros [= ->]. by apply (parse_report_real self topic data).
  - case_decide; [|done].
    destruct (MqttService.parse_desc data) as [[[mac name] color]|e] eqn:Hd; [done|].
    cbn. intros [= ->]. by apply (parse_desc_real data).
Qed.

Lemma run_real msgs self :
  Forall MqttService.string_addressed msgs →
  MqttService.raised (MqttService.run self msgs) ≠ Some Py.NonStringAddress.
Proof.
  revert self. induction msgs as [|[topic payload] msgs IH]; intros self Hmsgs; [done|].
  apply Forall_cons in Hmsgs as [Hmsg Hmsgs]. cbn.
  destruct (MqttService.raised (MqttService.on_message self topic payload)) eqn:Hr.
  - rewrite Hr. rewrite <-Hr. by apply on_message_real.
  - cbn. by apply IH.
Qed.

Lemma string_addressed_undecodable topic payload p :
  MqttService.decode payload = inr p → MqttService.string_addressed (topic, payload).
Proof. intros Hp data Hdata. cbn in Hdata. congruence. Qed.

Lemma string_addressed_report topic payload (time : string) (entries : list json) :
  MqttService.decode payload = inl (Example.report time entries) →
  Forall (λ ct, ∀ v, Py.getitem ct "mac" = Py.Ret v → ∃ s, v = JStr s) entries →
  MqttService.string_addressed (topic, payload).
Proof.
  intros Hp Hentries data Hdata. cbn in Hdata.
  assert (data = Example.report time entries) as -> by congruence.
  split; [done|].
  intros es cts ct v [= <-] [= <-] Hct Hv.
  rewrite Forall_forall in Hentries. by apply (Hentries ct Hct).
Qed.

End StringAddresses.

(** The messages of the examples below carry string addresses. *)
Lemma example_run_string_addressed :
  let H := Example.host in
  Forall MqttService.string_addressed
    [("JellingStone/s1", Example.bytes "anon");
     ("NameUpdate", Example.bytes "zz");
     ("JellingStone/s1", Example.bytes "r103")].
Proof.
  intros H. repeat apply Forall_cons_2; [| | |apply Forall_nil_2].
  - apply (string_addressed_report _ _ "1970-01-01T01:01:40Z"
             [JDict (("mac", JStr "aa") :: Example.rssi)]); [reflexivity|].
    apply Forall_singleton. intros v [= <-]. by exists "aa".
  - by apply (string_addressed_undecodable _ _ (Example.bytes "zz")).
  - apply (string_addressed_report _ _ "1970-01-01T01:01:43Z" []);
      [reflexivity | apply Forall_nil_2].
Defined.

(** X8: over any sequence of messages whose addresses are strings, the
    handler never changes the channel names or the update interval;
    everything it emits is the line for an undecodable payload or a retained
    publication on one of the three outgoing channels; a message causes at
    most two events; and the run does not stop at an address the typed
    model cannot carry. *)
Theorem run_effects `{Runtime} (self : MqttService.t) (msgs : list (string * list byte)) :
  Forall MqttService.string_addressed msgs →
  let o := MqttService.run self msgs in
  MqttService.raised o ≠ Some Py.NonStringAddress ∧
  MqttService.same_settings self (MqttService.final o) ∧
  Forall (MqttService.expected_event self) (MqttService.events o) ∧
  (length (MqttService.events o) <= 2 * length msgs)%nat.
Proof.
  intros Hmsgs. cbn zeta. split; [by apply run_real|]. apply run_effects_all.
Qed.

Lemma run_effects_witness :
  let H := Example.host in
  let o := MqttService.run (MqttService.init World.init)
             [("JellingStone/s1", Example.bytes "anon");
              ("NameUpdate", Example.bytes "zz");
              ("JellingStone/s1", Example.bytes "r103")] in
  MqttService.raised o ≠ Some Py.NonStringAddress ∧
  MqttService.same_settings (MqttService.init World.init) (MqttService.final o) ∧
  Forall (MqttService.expected_event (MqttService.init World.init)) (MqttService.events o) ∧
  (length (MqttService.events o) <= 6)%nat.
Proof.
  intros H o.
  exact (run_effects (MqttService.init World.init) _ example_run_string_addressed).
Defined.

(** X9: if every stone of the world is stored under its own address, has
    distinct sources and is inside its window, the same holds after any
    sequence of messages whose addresses are strings; the empty world is
    such a world. *)
Theorem run_keeps_world_in_order `{Runtime} (self : MqttService.t)
    (msgs : list (string * list byte)) :
  Forall MqttService.string_addressed msgs →
  World.keyed (MqttService.world self) ∧ World.well_kept (MqttService.world self) →
  MqttService.raised (MqttService.run self msgs) ≠ Some Py.NonStringAddress ∧
  World.keyed (MqttService.world (MqttService.final (MqttService.run self msgs))) ∧
  World.well_kept (MqttService.world (MqttService.final (MqttService.run self msgs))).
Proof.
  intros Hmsgs Hw. split; [by apply run_real|]. revert Hw.
  apply (run_invariant
           (λ s, World.keyed (MqttService.world s) ∧ World.well_kept (MqttService.world s))).
  intros s topic payload [Hk Hw].
  split; [by apply on_message_keyed | by apply on_message_well_kept].
Qed.

Lemma run_keeps_world_in_order_witness :
  let H := Example.host in
  let w := MqttService.world
             (MqttService.final
                (MqttService.run (MqttService.init World.init)
                   [("JellingStone/s1", Example.bytes "anon");
                    ("NameUpdate", Example.bytes "zz");
                    ("JellingStone/s1", Example.bytes "r103")])) in
  World.keyed w ∧ World.well_kept w.
Proof.
  intros H w.
  apply (run_keeps_world_in_order (MqttService.init World.init) _
           example_run_string_addressed).
  split; apply map_Forall_empty.
Defined.

(** X10: over any sequence of messages whose addresses are strings, the
    handler never removes a stone or a description: every address the world
    knew before, it still knows after. *)
Theorem run_never_forgets `{Runtime} (self : MqttService.t)
    (msgs : list (string * list byte)) :
  Forall MqttService.string_addressed msgs →
  let o := MqttService.run self msgs in
  MqttService.raised o ≠ Some Py.NonStringAddress ∧
  dom (World.stones (MqttService.world self)) ⊆
    dom (World.stones (MqttService.world (MqttService.final o))) ∧
  dom (World.descs (MqttService.world self)) ⊆
    dom (World.descs (MqttService.world (MqttService.final o))).
Proof.
  intros Hmsgs. cbn zeta. split; [by apply run_real|].
  apply (run_invariant
           (λ s, dom (World.stones (MqttService.world self)) ⊆
                   dom (World.stones (MqttService.world s)) ∧
                 dom (World.descs (MqttService.world self)) ⊆
                   dom (World.descs (MqttService.world s)))); [|done].
  intros s topic payload [Hs Hd].
  destruct (on_message_grows s topic payload) as [Hs' Hd'].
  split; [by etrans | by etrans].
Qed.

Lemma run_never_forgets_witness :
  let H := Example.host in
  let svc := MqttService.final
               (MqttService.on_message (MqttService.init World.init)
                  "JellingStone/s0" (Example.bytes "r100")) in
  let o := MqttService.run svc
             [("JellingStone/s1", Example.bytes "anon");
              ("NameUpdate", Example.bytes "zz");
              ("JellingStone/s1", Example.bytes "r103")] in
  "s0" ∈ dom (World.stones (MqttService.world svc)) ∧
  "s0" ∈ dom (World.stones (MqttService.world (MqttService.final o))).
Proof.
  intros H svc o.
  assert (Hs0 : "s0" ∈ dom (World.stones (MqttService.world svc))).
  { apply elem_of_dom. by eexists. }
  split; [exact Hs0|].
  destruct (run_never_forgets svc _ example_run_string_addressed) as (_ & Hstones & _).
  exact (Hstones "s0" Hs0).
Defined.

(** X11: on a message whose addresses are strings, a call of the handler
    leaves [last_stone_update] as it is or advances it by at least the
    update interval; so with an interval that is not negative it never
    decreases over a sequence of such messages, whatever order the reports
    are stamped in. *)
Theorem last_stone_update_never_decreases `{Runtime} (self : MqttService.t) :
  (∀ topic payload,
     MqttService.string_addressed (topic, payload) →
     let o := MqttService.on_message self topic payload in
     MqttService.raised o ≠ Some Py.NonStringAddress ∧
     (MqttService.last_stone_update (MqttService.final o) =
        MqttService.last_stone_update self ∨
      MqttService.last_stone_update self + MqttService.update_interval self <=
        MqttService.last_stone_update (MqttService.final o))) ∧
  (0 <= MqttService.update_interval self →
   ∀ msgs, Forall MqttService.string_addressed msgs →
           MqttService.raised (MqttService.run self msgs) ≠ Some Py.NonStringAddress ∧
           MqttService.last_stone_update self <=
             MqttService.last_stone_update (MqttService.final (MqttService.run self msgs))).
Proof.
  split.
  - intros topic payload Hmsg. cbn zeta.
    split; [by apply on_message_real | apply on_message_last_stone_update].
  - intros Hi msgs Hmsgs. split; [by apply run_real|].
    apply (run_invariant
             (λ s, MqttService.same_settings self s ∧
                   MqttService.last_stone_update self <= MqttService.last_stone_update s)).
    + intros s topic payload [Hs Hl]. split.
      * eapply same_settings_trans; [exact Hs|]. apply on_message_effects_one.
      * pose proof (on_message_last_stone_update s topic payload) as Hstep.
        cbn zeta in Hstep. destruct Hs as (_&_&_&_&_&Hs). rewrite Hs in Hstep. lia.
    + split; [apply same_settings_refl | lia].
Qed.

Lemma last_stone_update_never_decreases_witness :
  let H := Example.host in
  let svc := MqttService.final
               (MqttService.on_message (MqttService.init World.init)
                  "JellingStone/s1" (Example.bytes "r103")) in
  MqttService.last_stone_update svc = 103 ∧
  103 <= MqttService.last_stone_update
           (MqttService.final
              (MqttService.run svc [("JellingStone/s1", Example.bytes "epoch");
                                    ("JellingStone/s1", Example.bytes "r100")])).
Proof.
  intros H svc. split; [reflexivity|].
  apply (proj2 (last_stone_update_never_decreases svc)).
  - vm_compute. discriminate.
  - repeat apply Forall_cons_2; [| |apply Forall_nil_2].
    + apply (string_addressed_report _ _ "1970-01-01T00:00:00Z" []);
        [reflexivity | apply Forall_nil_2].
    + apply (string_addressed_report _ _ "1970-01-01T01:01:40Z" []);
        [reflexivity | apply Forall_nil_2].
Defined.

(** ** What the throttle publishes *)



